(** * Queue-manager core: rate limiter, session tokens, session env files

    A shallow embedding of the three JavaScript modules of
    [packages/queue-manager-core/lib] (rate-limit.js, session.js,
    env-file.js) together with the properties stated about them.

    Conventions of the embedding:
    - a JavaScript string is the list of its UTF-16 code units ([list Z],
      every unit in [0, 65536));
    - a [Buffer] is the list of its bytes ([list Z], every byte in [0, 256));
    - JavaScript numbers that hold integers (timestamps, counters) are
      mathematical integers [Z]; this is exact as long as the values stay
      inside the safe-integer range, which [Date.now()] always does;
    - [Date.now()] is an explicit argument of every function that reads
      the clock, one argument for each reading ([check] reads it once, and
      once more inside the [cleanup] it may call);
    - a [Map] is a [gmap]; mutation is explicit state passing. *)

From Stdlib Require Import ZArith Lia Ascii String.
From stdpp Require Import gmap list fin_maps sorting.

Local Open Scope Z_scope.

(** ** JavaScript strings *)

Abbreviation jsstring := (list Z) (only parsing).
Abbreviation bytes := (list Z) (only parsing).

(** An ASCII literal as a JavaScript string. *)
Fixpoint js (s : string) : jsstring :=
  match s with
  | EmptyString => []
  | String c rest => Z.of_nat (nat_of_ascii c) :: js rest
  end.

(** Every code unit is a 16-bit value. *)
Definition code_units (s : jsstring) : Prop := Forall (λ c, 0 <= c < 65536) s.

(** Every byte is an 8-bit value. *)
Definition octets (b : bytes) : Prop := Forall (λ x, 0 <= x < 256) b.

(** ** rate-limit.js *)

Module RateLimit.

(** The value stored in [records]: [{ count, resetAt }]. *)
Record record := Rec { count : Z; resetAt : Z }.

(** The destructured options of [createRateLimiter]. *)
Record options := Options {
  windowMs : Z;
  maxAttempts : Z;
  cleanupThreshold : Z
}.

(** The object returned by [check]; [retryAfter] is only present on a
    blocked result. *)
Record check_result := CheckResult {
  allowed : bool;
  remaining : Z;
  retryAfter : option Z
}.

(** [Math.ceil(a / b)] on integers, for a positive divisor. *)
Definition Math_ceil_div (a b : Z) : Z := - ((- a) / b).

(** [cleanup()]: delete every entry with [now > record.resetAt]; [now] is
    the function's own reading of the clock. *)
Definition cleanup (now : Z) (records : gmap (list Z) record)
  : gmap (list Z) record :=
  filter (λ kr, ¬ (now > resetAt kr.2)) records.

(** First statement of [check]:
    [if (existing && now > existing.resetAt) records.delete(key)]. *)
Definition delete_expired (key : jsstring) (now : Z)
    (records : gmap (list Z) record) : gmap (list Z) record :=
  match records !! key with
  | Some existing =>
      if bool_decide (now > resetAt existing) then delete key records
      else records
  | None => records
  end.

(** Second statement of [check]:
    [if (records.size > cleanupThreshold) cleanup()]. The call of
    [cleanup] reads the clock again, as [now_sweep]. *)
Definition cleanup_if_large (o : options) (now_sweep : Z)
    (records : gmap (list Z) record) : gmap (list Z) record :=
  if bool_decide (Z.of_nat (size records) > cleanupThreshold o)
  then cleanup now_sweep records
  else records.

(** The contents of [records] after the two clean-up statements of
    [check]. *)
Definition swept (o : options) (key : jsstring) (now now_sweep : Z)
    (records : gmap (list Z) record) : gmap (list Z) record :=
  cleanup_if_large o now_sweep (delete_expired key now records).

(** [check(key, increment)]: [now] is the clock reading of [check] itself,
    [now_sweep] the one of the [cleanup] it may call; returns the result
    object and the new contents of [records]. *)
Definition check (o : options) (key : jsstring) (increment : bool)
    (now now_sweep : Z) (records : gmap (list Z) record)
  : check_result * gmap (list Z) record :=
  let records := delete_expired key now records in
  let records := cleanup_if_large o now_sweep records in
  match records !! key with
  | None =>
      (CheckResult true (maxAttempts o - 1) None,
       if increment
       then <[key := Rec 1 (now + windowMs o)]> records
       else records)
  | Some record =>
      if bool_decide (count record >= maxAttempts o) then
        (CheckResult false 0
           (Some (Math_ceil_div (resetAt record - now) 1000)),
         records)
      else
        let record' :=
          if increment then Rec (count record + 1) (resetAt record)
          else record in
        (CheckResult true (maxAttempts o - count record') None,
         if increment then <[key := record']> records else records)
  end.

(** [recordFailure(key)]. *)
Definition recordFailure (o : options) (key : jsstring) (now : Z)
    (records : gmap (list Z) record) : gmap (list Z) record :=
  match records !! key with
  | Some record =>
      if bool_decide (now > resetAt record)
      then <[key := Rec 1 (now + windowMs o)]> records
      else <[key := Rec (count record + 1) (resetAt record)]> records
  | None => <[key := Rec 1 (now + windowMs o)]> records
  end.

(** [reset(key)] and [size()]. *)
Definition reset (key : jsstring) (records : gmap (list Z) record)
  : gmap (list Z) record := delete key records.

Definition size_ (records : gmap (list Z) record) : Z :=
  Z.of_nat (size records).

(** [createRateLimiter(options)]: the two guards, then an empty map.
    [cleanupThreshold] defaults to 1000 when it is not given. *)
Definition createRateLimiter (windowMs_ maxAttempts_ : Z)
    (cleanupThreshold_ : option Z)
  : string + (options * gmap (list Z) record) :=
  if bool_decide (windowMs_ = 0) || bool_decide (windowMs_ <= 0) then
    inl "windowMs must be a positive number"%string
  else if bool_decide (maxAttempts_ = 0) || bool_decide (maxAttempts_ <= 0)
  then inl "maxAttempts must be a positive number"%string
  else inr (Options windowMs_ maxAttempts_ (default 1000 cleanupThreshold_),
            ∅).

(** [a || b] on an optional number: [undefined] and [0] are falsy. *)
Definition or_default (a : option Z) (b : Z) : Z :=
  match a with
  | Some x => if bool_decide (x = 0) then b else x
  | None => b
  end.

(** [createConnectionRateLimiter(options)]. *)
Definition createConnectionRateLimiter
    (windowMs_ maxConnections_ cleanupThreshold_ : option Z) :=
  createRateLimiter (or_default windowMs_ (60 * 1000))
    (or_default maxConnections_ 10)
    (Some (or_default cleanupThreshold_ 1000)).

(** [createInviteRateLimiter(options)]. *)
Definition createInviteRateLimiter
    (windowMs_ maxAttempts_ cleanupThreshold_ : option Z) :=
  createRateLimiter (or_default windowMs_ (60 * 60 * 1000))
    (or_default maxAttempts_ 10)
    (Some (or_default cleanupThreshold_ 500)).

(** Successive calls [check(key)] (with the default [increment = true]);
    each call comes with its two clock readings. *)
Fixpoint check_seq (o : options) (key : jsstring) (nows : list (Z * Z))
    (records : gmap (list Z) record)
  : list check_result * gmap (list Z) record :=
  match nows with
  | [] => ([], records)
  | now :: rest =>
      let '(r, records1) := check o key true now.1 now.2 records in
      let '(rs, records2) := check_seq o key rest records1 in
      (r :: rs, records2)
  end.

End RateLimit.

(** ** The JavaScript built-ins the modules call *)

Module JS.

(** [Number.prototype.toString()] on an integer: decimal digits without
    leading zeros, ["-"] in front of a negative number. *)
Fixpoint digits_of (fuel : nat) (n : Z) : jsstring :=
  match fuel with
  | O => []
  | S fuel' =>
      if n <? 10 then [48 + n]
      else digits_of fuel' (n / 10) ++ [48 + n mod 10]
  end.

Definition Number_toString (n : Z) : jsstring :=
  if n <? 0 then 45 :: digits_of (S (Z.to_nat (Z.log2 (- n)))) (- n)
  else digits_of (S (Z.to_nat (Z.log2 n))) n.

(** The white space that [parseInt] skips (WhiteSpace and LineTerminator
    of ECMA-262). *)
Definition is_white_space (c : Z) : bool :=
  ((9 <=? c) && (c <=? 13)) || (c =? 32) || (c =? 160) || (c =? 5760)
  || ((8192 <=? c) && (c <=? 8202)) || (c =? 8232) || (c =? 8233)
  || (c =? 8239) || (c =? 8287) || (c =? 12288) || (c =? 65279).

Definition is_digit (c : Z) : bool := (48 <=? c) && (c <=? 57).

(** A string of decimal digits. *)
Definition digits (s : jsstring) : Prop := Forall (λ c, 48 ≤ c ≤ 57) s.

Fixpoint skip_white_space (s : jsstring) : jsstring :=
  match s with
  | c :: rest => if is_white_space c then skip_white_space rest else s
  | [] => []
  end.

Fixpoint take_digits (s : jsstring) : jsstring :=
  match s with
  | c :: rest => if is_digit c then c :: take_digits rest else []
  | [] => []
  end.

Definition digits_value (ds : jsstring) : Z :=
  fold_left (λ acc d, 10 * acc + (d - 48)) ds 0.

(** [parseInt(s, 10)]; [None] is [NaN]. *)
Definition parseInt10 (s : jsstring) : option Z :=
  let s := skip_white_space s in
  let '(sign, s) :=
    match s with
    | c :: rest =>
        if c =? 45 then (-1, rest)
        else if c =? 43 then (1, rest)
        else (1, s)
    | [] => (1, s)
    end in
  match take_digits s with
  | [] => None
  | ds => Some (sign * digits_value ds)
  end.

(** [s.split(sep)] for a one-character separator. *)
Fixpoint split (sep : Z) (s : jsstring) : list jsstring :=
  match s with
  | [] => [[]]
  | c :: rest =>
      if c =? sep then [] :: split sep rest
      else match split sep rest with
           | part :: parts => (c :: part) :: parts
           | [] => [[c]]
           end
  end.

(** [s.lastIndexOf(c)] for a one-character needle; [-1] when absent. *)
Fixpoint lastIndexOf (c : Z) (s : jsstring) : Z :=
  match s with
  | [] => -1
  | x :: rest =>
      let i := lastIndexOf c rest in
      if 0 <=? i then i + 1 else if x =? c then 0 else -1
  end.

(** [s.slice(start, end)] with the relative-index clamping of ECMA-262. *)
Definition clamp_index (len i : Z) : Z :=
  if i <? 0 then Z.max (len + i) 0 else Z.min i len.

Definition slice (s : jsstring) (start end_ : Z) : jsstring :=
  let len := Z.of_nat (length s) in
  let from := clamp_index len start in
  let to := clamp_index len end_ in
  take (Z.to_nat (to - from)) (drop (Z.to_nat from) s).

(** [s.slice(start)]. *)
Definition slice_from (s : jsstring) (start : Z) : jsstring :=
  slice s start (Z.of_nat (length s)).

(** [parts.join(sep)]. *)
Fixpoint join (sep : jsstring) (parts : list jsstring) : jsstring :=
  match parts with
  | [] => []
  | [p] => p
  | p :: rest => p ++ sep ++ join sep rest
  end.

End JS.

(** ** Buffer encodings: UTF-8, base64 and hex as Node implements them *)

Module Encoding.

Definition is_high_surrogate (c : Z) : bool := (0xD800 <=? c) && (c <=? 0xDBFF).
Definition is_low_surrogate (c : Z) : bool := (0xDC00 <=? c) && (c <=? 0xDFFF).

(** The UTF-8 bytes of one code point. *)
Definition utf8_code_point (cp : Z) : bytes :=
  if cp <? 0x80 then [cp]
  else if cp <? 0x800 then [0xC0 + cp / 64; 0x80 + cp mod 64]
  else if cp <? 0x10000 then
    [0xE0 + cp / 4096; 0x80 + (cp / 64) mod 64; 0x80 + cp mod 64]
  else
    [0xF0 + cp / 262144; 0x80 + (cp / 4096) mod 64;
     0x80 + (cp / 64) mod 64; 0x80 + cp mod 64].

(** [Buffer.from(s)] / [Buffer.from(s, 'utf8')], also what
    [hmac.update(s)] and a string key of [createHmac] go through: a
    surrogate pair is one code point, an unpaired surrogate is written as
    U+FFFD (EF BF BD). *)
Fixpoint utf8_encode (s : jsstring) : bytes :=
  match s with
  | [] => []
  | c :: rest =>
      if is_high_surrogate c then
        match rest with
        | d :: rest' =>
            if is_low_surrogate d then
              utf8_code_point (0x10000 + (c - 0xD800) * 1024 + (d - 0xDC00))
                ++ utf8_encode rest'
            else [0xEF; 0xBF; 0xBD] ++ utf8_encode rest
        | [] => [0xEF; 0xBF; 0xBD]
        end
      else if is_low_surrogate c then [0xEF; 0xBF; 0xBD] ++ utf8_encode rest
      else utf8_code_point c ++ utf8_encode rest
  end.

(** The UTF-16 code units of one code point. *)
Definition utf16_units (cp : Z) : jsstring :=
  if cp <? 0x10000 then [cp]
  else [0xD800 + (cp - 0x10000) / 1024; 0xDC00 + (cp - 0x10000) mod 1024].

(** [buf.toString('utf8')]: the decoder never fails; every maximal
    ill-formed subsequence becomes one U+FFFD. [needed] is the number of
    continuation bytes still expected, [lower]/[upper] the range allowed
    for the next one, [cp] the bits collected so far. *)
Fixpoint utf8_decode_loop (cp needed lower upper : Z) (bs : bytes)
    {struct bs} : jsstring :=
  match bs with
  | [] => if needed =? 0 then [] else [0xFFFD]
  | b :: rest =>
      let lead :=
        if b <=? 0x7F then b :: utf8_decode_loop 0 0 0x80 0xBF rest
        else if (0xC2 <=? b) && (b <=? 0xDF) then
          utf8_decode_loop (b mod 32) 1 0x80 0xBF rest
        else if (0xE0 <=? b) && (b <=? 0xEF) then
          utf8_decode_loop (b mod 16) 2
            (if b =? 0xE0 then 0xA0 else 0x80)
            (if b =? 0xED then 0x9F else 0xBF) rest
        else if (0xF0 <=? b) && (b <=? 0xF4) then
          utf8_decode_loop (b mod 8) 3
            (if b =? 0xF0 then 0x90 else 0x80)
            (if b =? 0xF4 then 0x8F else 0xBF) rest
        else 0xFFFD :: utf8_decode_loop 0 0 0x80 0xBF rest in
      if needed =? 0 then lead
      else if (lower <=? b) && (b <=? upper) then
        let cp' := cp * 64 + b mod 64 in
        if needed =? 1 then
          utf16_units cp' ++ utf8_decode_loop 0 0 0x80 0xBF rest
        else utf8_decode_loop cp' (needed - 1) 0x80 0xBF rest
      else 0xFFFD :: lead
  end.

Definition utf8_decode (bs : bytes) : jsstring :=
  utf8_decode_loop 0 0 0x80 0xBF bs.

(** What a string becomes when it goes through UTF-8 and back: unpaired
    surrogates are replaced by U+FFFD. *)
Fixpoint to_well_formed (s : jsstring) : jsstring :=
  match s with
  | [] => []
  | c :: rest =>
      if is_high_surrogate c then
        match rest with
        | d :: rest' =>
            if is_low_surrogate d then c :: d :: to_well_formed rest'
            else 0xFFFD :: to_well_formed rest
        | [] => [0xFFFD]
        end
      else if is_low_surrogate c then 0xFFFD :: to_well_formed rest
      else c :: to_well_formed rest
  end.

(** A string without unpaired surrogates. *)
Definition well_formed (s : jsstring) : Prop := to_well_formed s = s.

(** The base64 alphabet. *)
Definition base64_char (n : Z) : Z :=
  if n <? 26 then 65 + n
  else if n <? 52 then 71 + n
  else if n <? 62 then n - 4
  else if n =? 62 then 43
  else 47.

(** [buf.toString('base64')]: standard alphabet, padded with ['=']. *)
Fixpoint base64_encode (b : bytes) : jsstring :=
  match b with
  | [] => []
  | [x] => [base64_char (x / 4); base64_char (x mod 4 * 16); 61; 61]
  | [x; y] =>
      [base64_char (x / 4); base64_char (x mod 4 * 16 + y / 16);
       base64_char (y mod 16 * 4); 61]
  | x :: y :: z :: rest =>
      [base64_char (x / 4); base64_char (x mod 4 * 16 + y / 16);
       base64_char (y mod 16 * 4 + z / 64); base64_char (z mod 64)]
        ++ base64_encode rest
  end.

(** Node's decoding table: both the standard and the URL-safe alphabet.
    The decoder looks at the low eight bits of a code unit. *)
Definition unbase64 (c : Z) : option Z :=
  if (65 <=? c) && (c <=? 90) then Some (c - 65)
  else if (97 <=? c) && (c <=? 122) then Some (c - 71)
  else if (48 <=? c) && (c <=? 57) then Some (c + 4)
  else if (c =? 43) || (c =? 45) then Some 62
  else if (c =? 47) || (c =? 95) then Some 63
  else None.

(** The legal characters of the input, up to the first ['=']: characters
    outside the alphabet are skipped, padding stops the decoder. *)
Fixpoint base64_sextets (s : jsstring) : list Z :=
  match s with
  | [] => []
  | c :: rest =>
      match unbase64 (c mod 256) with
      | Some v => v :: base64_sextets rest
      | None => if c mod 256 =? 61 then [] else base64_sextets rest
      end
  end.

Fixpoint base64_groups (l : list Z) : bytes :=
  match l with
  | a :: b :: c :: d :: rest =>
      [a * 4 + b / 16; b mod 16 * 16 + c / 4; c mod 4 * 64 + d]
        ++ base64_groups rest
  | [a; b; c] => [a * 4 + b / 16; b mod 16 * 16 + c / 4]
  | [a; b] => [a * 4 + b / 16]
  | _ => []
  end.

(** [Buffer.from(s, 'base64')]: total, it never throws. *)
Definition base64_decode (s : jsstring) : bytes :=
  base64_groups (base64_sextets s).

Definition hex_digit (n : Z) : Z := if n <? 10 then 48 + n else 87 + n.

(** [buf.toString('hex')] / [digest('hex')]: lowercase. *)
Definition hex_encode (b : bytes) : jsstring :=
  flat_map (λ x, [hex_digit (x / 16); hex_digit (x mod 16)]) b.

Definition unhex (c : Z) : option Z :=
  if (48 <=? c) && (c <=? 57) then Some (c - 48)
  else if (97 <=? c) && (c <=? 102) then Some (c - 87)
  else if (65 <=? c) && (c <=? 70) then Some (c - 55)
  else None.

(** [Buffer.from(s, 'hex')]: decodes pairs of digits and stops at the
    first pair that is not hexadecimal; a trailing odd digit is dropped. *)
Fixpoint hex_decode (s : jsstring) : bytes :=
  match s with
  | a :: b :: rest =>
      match unhex (a mod 256), unhex (b mod 256) with
      | Some x, Some y => (16 * x + y) :: hex_decode rest
      | _, _ => []
      end
  | _ => []
  end.

End Encoding.

(** ** crypto: SHA-256 (FIPS 180-4) and HMAC (RFC 2104) *)

Module SHA256.

Definition w32 (x : Z) : Z := x mod 2 ^ 32.

Definition rotr (n x : Z) : Z :=
  Z.lor (Z.shiftr x n) (w32 (Z.shiftl x (32 - n))).

Definition Ch (x y z : Z) : Z :=
  Z.lxor (Z.land x y) (Z.land (Z.lxor x (2 ^ 32 - 1)) z).

Definition Maj (x y z : Z) : Z :=
  Z.lxor (Z.lxor (Z.land x y) (Z.land x z)) (Z.land y z).

Definition Sigma0 (x : Z) : Z :=
  Z.lxor (Z.lxor (rotr 2 x) (rotr 13 x)) (rotr 22 x).

Definition Sigma1 (x : Z) : Z :=
  Z.lxor (Z.lxor (rotr 6 x) (rotr 11 x)) (rotr 25 x).

Definition sigma0 (x : Z) : Z :=
  Z.lxor (Z.lxor (rotr 7 x) (rotr 18 x)) (Z.shiftr x 3).

Definition sigma1 (x : Z) : Z :=
  Z.lxor (Z.lxor (rotr 17 x) (rotr 19 x)) (Z.shiftr x 10).

(** The first sixty-four primes. *)
Definition primes : list Z :=
  [2; 3; 5; 7; 11; 13; 17; 19; 23; 29; 31; 37; 41; 43; 47; 53;
   59; 61; 67; 71; 73; 79; 83; 89; 97; 101; 103; 107; 109; 113; 127; 131;
   137; 139; 149; 151; 157; 163; 167; 173; 179; 181; 191; 193; 197; 199;
   211; 223; 227; 229; 233; 239; 241; 251; 257; 263; 269; 271; 277; 281;
   283; 293; 307; 311].

(** Integer cube root, one bit at a time from bit 40 down. *)
Definition icbrt (n : Z) : Z :=
  fold_left
    (λ r i, let r' := r + 2 ^ i in if r' * r' * r' <=? n then r' else r)
    (reverse (seqZ 0 41)) 0.

(** The round constants: the first 32 bits of the fractional parts of the
    cube roots of the primes. *)
Definition K : list Z :=
  Eval vm_compute in map (λ p, w32 (icbrt (p * 2 ^ 96))) primes.

(** The initial hash value: the same for the square roots of the first
    eight primes. *)
Definition H0 : Z * Z * Z * Z * Z * Z * Z * Z :=
  Eval vm_compute in
    let h := λ p, w32 (Z.sqrt (p * 2 ^ 64)) in
    (h 2, h 3, h 5, h 7, h 11, h 13, h 17, h 19).

(** Big-endian 32-bit words of a block. *)
Fixpoint words (bs : bytes) : list Z :=
  match bs with
  | a :: b :: c :: d :: rest =>
      (((a * 256 + b) * 256 + c) * 256 + d) :: words rest
  | _ => []
  end.

(** The message schedule: [n] more words after the ones in [ws]. *)
Fixpoint schedule (n : nat) (ws : list Z) : list Z :=
  match n with
  | O => ws
  | S n' =>
      let t := length ws in
      schedule n'
        (ws ++ [w32 (sigma1 (nth (t - 2) ws 0) + nth (t - 7) ws 0
                     + sigma0 (nth (t - 15) ws 0) + nth (t - 16) ws 0)])
  end.

Definition round (st : Z * Z * Z * Z * Z * Z * Z * Z) (kw : Z * Z)
  : Z * Z * Z * Z * Z * Z * Z * Z :=
  let '(a, b, c, d, e, f, g, h) := st in
  let t1 := w32 (h + Sigma1 e + Ch e f g + kw.1 + kw.2) in
  let t2 := w32 (Sigma0 a + Maj a b c) in
  (w32 (t1 + t2), a, b, c, w32 (d + t1), e, f, g).

Definition compress (st : Z * Z * Z * Z * Z * Z * Z * Z) (block : bytes)
  : Z * Z * Z * Z * Z * Z * Z * Z :=
  let '(a, b, c, d, e, f, g, h) := st in
  let '(a', b', c', d', e', f', g', h') :=
    fold_left round (zip K (schedule 48 (words block))) st in
  (w32 (a + a'), w32 (b + b'), w32 (c + c'), w32 (d + d'),
   w32 (e + e'), w32 (f + f'), w32 (g + g'), w32 (h + h')).

(** Padding: a one bit, zeros, and the bit length as a 64-bit number. *)
Definition pad (msg : bytes) : bytes :=
  let len := Z.of_nat (length msg) in
  msg ++ [0x80] ++ replicate (Z.to_nat ((55 - len) mod 64)) 0
    ++ map (λ i, (8 * len / 256 ^ i) mod 256) (reverse (seqZ 0 8)).

Fixpoint blocks (n : nat) (bs : bytes) : list bytes :=
  match n with
  | O => []
  | S n' => take 64 bs :: blocks n' (drop 64 bs)
  end.

Definition word_bytes (w : Z) : bytes :=
  [(w / 2 ^ 24) mod 256; (w / 2 ^ 16) mod 256; (w / 2 ^ 8) mod 256;
   w mod 256].

Definition sha256 (msg : bytes) : bytes :=
  let padded := pad msg in
  let '(a, b, c, d, e, f, g, h) :=
    fold_left compress (blocks (length padded / 64) padded) H0 in
  word_bytes a ++ word_bytes b ++ word_bytes c ++ word_bytes d
    ++ word_bytes e ++ word_bytes f ++ word_bytes g ++ word_bytes h.

(** [crypto.createHmac('sha256', key).update(msg).digest()]. *)
Definition hmac (key msg : bytes) : bytes :=
  let key := if bool_decide (64 < length key)%nat then sha256 key else key in
  let key := key ++ replicate (64 - length key) 0 in
  sha256 (map (Z.lxor 0x5C) key
            ++ sha256 (map (Z.lxor 0x36) key ++ msg)).

End SHA256.

(** ** session.js *)

Module Session.
Import JS Encoding.

(** The two shapes of the object [validateSessionToken] returns:
    [{ valid: false, error }] and
    [{ valid: true, sessionId, timestamp, error: null }]. *)
Inductive validation :=
| Rejected (error : string)
| Accepted (sessionId : jsstring) (timestamp : Z).

Definition valid (v : validation) : bool :=
  match v with Accepted _ _ => true | Rejected _ => false end.

Definition error (v : validation) : option string :=
  match v with Accepted _ _ => None | Rejected e => Some e end.

Definition sessionId (v : validation) : option jsstring :=
  match v with Accepted s _ => Some s | Rejected _ => None end.

Definition timestamp (v : validation) : option Z :=
  match v with Accepted _ t => Some t | Rejected _ => None end.

(** The object [isSessionTokenExpired] returns. *)
Record expiry := Expiry {
  expired : bool;
  ageMs : option Z;
  expiry_error : option string
}.

(** [crypto.createHmac('sha256', secret).update(data).digest('hex')]. *)
Definition hmac_hex (secret data : jsstring) : jsstring :=
  hex_encode (SHA256.hmac (utf8_encode secret) (utf8_encode data)).

(** The data that a token generated at clock reading [now] carries and
    signs: [`${sessionId}:${timestamp}`]. *)
Definition token_data (sessionId : jsstring) (now : Z) : jsstring :=
  sessionId ++ js ":" ++ Number_toString now.

(** [generateSessionToken(sessionId, secret)]; [inl] is a thrown
    [Error]. *)
Definition generateSessionToken (sessionId secret : jsstring) (now : Z)
  : string + jsstring :=
  if bool_decide (sessionId = []) then
    inl "sessionId must be a non-empty string"%string
  else if bool_decide (secret = []) then
    inl "secret must be a non-empty string"%string
  else
    let timestamp := Number_toString now in
    let data := sessionId ++ js ":" ++ timestamp in
    let signature := hmac_hex secret data in
    inr (base64_encode (utf8_encode data) ++ js "." ++ signature).

(** The body of the [try] block,
    [Buffer.from(encodedData, 'base64').toString('utf8')]; [inl] would be
    a thrown exception. Neither call throws. *)
Definition try_decode (encodedData : jsstring) : unit + jsstring :=
  inr (utf8_decode (base64_decode encodedData)).

(** [crypto.timingSafeEqual(a, b)] on buffers of equal length. *)
Definition timingSafeEqual (a b : bytes) : bool := bool_decide (a = b).

(** [validateSessionToken(token, secret)]. *)
Definition validateSessionToken (token secret : jsstring) : validation :=
  if bool_decide (token = []) then
    Rejected "Token must be a non-empty string"
  else if bool_decide (secret = []) then
    Rejected "Secret must be a non-empty string"
  else
    match split 46 token with
    | [encodedData; signature] =>
        match try_decode encodedData with
        | inl _ => Rejected "Invalid base64 encoding"
        | inr data =>
            let expectedSignature := hmac_hex secret data in
            let signatureBuffer := hex_decode signature in
            let expectedBuffer := hex_decode expectedSignature in
            if bool_decide (length signatureBuffer ≠ length expectedBuffer)
               || negb (timingSafeEqual signatureBuffer expectedBuffer)
            then Rejected "Invalid signature"
            else
              let colonIndex := lastIndexOf 58 data in
              if colonIndex =? -1 then Rejected "Invalid token data format"
              else
                let sessionId := slice data 0 colonIndex in
                match parseInt10 (slice_from data (colonIndex + 1)) with
                | None => Rejected "Invalid timestamp"
                | Some timestamp => Accepted sessionId timestamp
                end
        end
    | _ => Rejected "Invalid token format"
    end.

(** [isSessionTokenExpired(token, secret, maxAgeMs)]. *)
Definition isSessionTokenExpired (token secret : jsstring) (maxAgeMs : Z)
    (now : Z) : expiry :=
  match validateSessionToken token secret with
  | Rejected e => Expiry true None (Some e)
  | Accepted _ timestamp =>
      let ageMs := now - timestamp in
      Expiry (bool_decide (ageMs > maxAgeMs)) (Some ageMs) None
  end.

End Session.

(** ** env-file.js *)

Module EnvFile.
Import JS.

(** The values a credentials object holds. *)
Inductive value :=
| VUndefined
| VNull
| VString (s : jsstring)
| VBoolean (b : bool)
| VNumber (n : Z).

#[export] Instance value_eq_dec : EqDecision value.
Proof. solve_decision. Defined.

(** The string a template literal makes of a value. *)
Definition ToString (v : value) : jsstring :=
  match v with
  | VUndefined => js "undefined"
  | VNull => js "null"
  | VString s => s
  | VBoolean true => js "true"
  | VBoolean false => js "false"
  | VNumber n => Number_toString n
  end.

(** A property key is an array index when it is the canonical decimal
    form of an integer in [0, 2^32 - 2]. *)
Definition array_index (k : jsstring) : option Z :=
  match k with
  | [] => None
  | c :: rest =>
      if forallb is_digit k && (negb (c =? 48) || bool_decide (rest = []))
         && (digits_value k <=? 2 ^ 32 - 2)
      then Some (digits_value k)
      else None
  end.


(** Entries tagged with their array index are ordered by the index. *)
Definition index_le (a b : Z * (jsstring * value)) : Prop := a.1 ≤ b.1.

#[export] Instance index_le_dec : RelDecision index_le.
Proof. intros a b. unfold index_le. apply _. Defined.

(** [Object.entries(o)]: array-index keys first, in ascending numeric
    order, then the other keys in creation order. *)
Definition Object_entries (o : list (jsstring * value))
  : list (jsstring * value) :=
  (merge_sort index_le
     (omap (λ kv, (λ i, (i, kv)) <$> array_index kv.1) o)).*2
  ++ filter (λ kv, array_index kv.1 = None) o.

(** The filter callback:
    [value !== undefined && value !== null && value !== '']. *)
Definition kept (kv : jsstring * value) : Prop :=
  kv.2 ≠ VUndefined ∧ kv.2 ≠ VNull ∧ kv.2 ≠ VString [].

(** The map callback: the template literal [`${key}=${value}`]. *)
Definition line (kv : jsstring * value) : jsstring :=
  kv.1 ++ js "=" ++ ToString kv.2.

(** The array that is joined. *)
Definition envLines (credentials : list (jsstring * value))
  : list jsstring :=
  line <$> filter kept (Object_entries credentials).

(** [envContent]. *)
Definition envContent (credentials : list (jsstring * value)) : jsstring :=
  join [10] (envLines credentials) ++ [10].


(** The argument of [createSessionEnvFile]; [credentials] is [None] when
    it is missing or not an object. *)
Record env_options := EnvOptions {
  sessionId : jsstring;
  containerPath : jsstring;
  hostPath : jsstring;
  credentials : option (list (jsstring * value))
}.

(** What the function uses from [path] and [fs]: [path.join], and whether
    [mkdirSync] / [writeFileSync] throw for a path (the error's [code] and
    [message]). *)
Record host := Host {
  path_join : jsstring → jsstring → jsstring;
  mkdirSync : jsstring → option (string * string);
  writeFileSync : jsstring → option string
}.

(** The returned object; [cleanup] is the function below applied to it. *)
Record env_file := EnvFileInfo {
  fullContainerPath : jsstring;
  fullHostPath : jsstring
}.

(** The [catch] around [mkdirSync]: an error is rethrown unless its code
    is [EEXIST]. *)
Definition mkdir_failure (thrown : option (string * string))
  : option string :=
  match thrown with
  | Some (code, message) =>
      if bool_decide (code ≠ "EEXIST"%string) then Some message else None
  | None => None
  end.

(** [createSessionEnvFile(options)] on a file store that maps a path to
    the file's content and permission bits. A new file gets mode 0600
    (384); writing over an existing file keeps its mode. *)
Definition createSessionEnvFile (h : host) (opts : env_options)
    (fs : gmap (list Z) (list Z * Z))
  : string + (env_file * gmap (list Z) (list Z * Z)) :=
  if bool_decide (sessionId opts = []) then
    inl "sessionId must be a non-empty string"%string
  else if bool_decide (containerPath opts = []) then
    inl "containerPath must be a non-empty string"%string
  else if bool_decide (hostPath opts = []) then
    inl "hostPath must be a non-empty string"%string
  else
    match credentials opts with
    | None => inl "credentials must be an object"%string
    | Some credentials =>
        let filename := js "session-" ++ sessionId opts ++ js ".env" in
        let fullContainerPath := path_join h (containerPath opts) filename in
        let fullHostPath := path_join h (hostPath opts) filename in
        let envContent := envContent credentials in
        match mkdir_failure (mkdirSync h (containerPath opts)) with
        | Some message =>
            inl ("Failed to create env directory: " ++ message)%string
        | None =>
            match writeFileSync h fullContainerPath with
            | Some message =>
                inl ("Failed to write env file: " ++ message)%string
            | None =>
                inr (EnvFileInfo fullContainerPath fullHostPath,
                     <[fullContainerPath :=
                         (envContent,
                          default 384 (snd <$> fs !! fullContainerPath))]>
                       fs)
            end
        end
    end.

(** The [cleanup] closure: [fs.unlinkSync(fullContainerPath)], a missing
    file is not an error. *)
Definition cleanup_env_file (f : env_file) (fs : gmap (list Z) (list Z * Z))
  : gmap (list Z) (list Z * Z) :=
  delete (fullContainerPath f) fs.

End EnvFile.

(** ** rate-limit.js: a limiter instance in use *)

Module RateLimitCalls.
Import RateLimit.

(** One call of a method of the object returned by [createRateLimiter],
    with the clock readings the call makes. *)
Inductive call :=
| Check (key : jsstring) (increment : bool) (now now_sweep : Z)
| RecordFailure (key : jsstring) (now : Z)
| Cleanup (now : Z)
| Reset (key : jsstring).

(** The contents of [records] after a call. *)
Definition apply_call (o : options) (records : gmap (list Z) record)
    (c : call) : gmap (list Z) record :=
  match c with
  | Check key increment now now_sweep =>
      (check o key increment now now_sweep records).2
  | RecordFailure key now => recordFailure o key now records
  | Cleanup now => cleanup now records
  | Reset key => reset key records
  end.

(** The contents of [records] after a sequence of calls. *)
Definition run (o : options) (calls : list call)
    (records : gmap (list Z) record) : gmap (list Z) record :=
  fold_left (apply_call o) calls records.

(** The key a call is about. *)
Definition call_key (c : call) : option jsstring :=
  match c with
  | Check key _ _ _ | RecordFailure key _ | Reset key => Some key
  | Cleanup _ => None
  end.

(** The clock readings of a call. *)
Definition call_clock (c : call) : list Z :=
  match c with
  | Check _ _ now now_sweep => [now; now_sweep]
  | RecordFailure _ now | Cleanup now => [now]
  | Reset _ => []
  end.

Definition is_recordFailure (c : call) : bool :=
  match c with RecordFailure _ _ => true | _ => false end.

(** The number of [recordFailure] calls in a sequence. *)
Definition failures (calls : list call) : Z :=
  Z.of_nat (length (List.filter is_recordFailure calls)).

(** The calls of the invite limiter on one key before [resetAt]:
    [recordFailure(key)] and [check(key, false)]. *)
Definition invite_call (key : jsstring) (resetAt : Z) (c : call) : Prop :=
  match c with
  | RecordFailure k now => k = key ∧ now ≤ resetAt
  | Check k false now now_sweep =>
      k = key ∧ now ≤ resetAt ∧ now_sweep ≤ resetAt
  | _ => False
  end.

End RateLimitCalls.

(** ** env-file.js: the env file manager *)

Module EnvFileManager.
Import JS EnvFile.

(** The file store and what was written with [console.error]. *)
Record world := World {
  fs : gmap (list Z) (list Z * Z);
  console : list jsstring
}.

(** [fs.unlinkSync(path)]: a missing file is the error [ENOENT];
    [unlink_error] tells whether removing an existing file throws (the
    error's [code] and [message]). Returns the thrown error, if any. *)
Definition unlinkSync (unlink_error : jsstring → option (string * string))
    (path : jsstring) (files : gmap (list Z) (list Z * Z))
  : option (string * string) * gmap (list Z) (list Z * Z) :=
  match files !! path with
  | None => (Some ("ENOENT"%string, "no such file or directory"%string), files)
  | Some _ =>
      match unlink_error path with
      | Some e => (Some e, files)
      | None => (None, delete path files)
      end
  end.

(** [envFile.cleanup()], the closure returned by [createSessionEnvFile],
    with its [catch]: an error other than [ENOENT] is logged, none is
    thrown. *)
Definition envFile_cleanup
    (unlink_error : jsstring → option (string * string))
    (f : env_file) (w : world) : world :=
  match unlinkSync unlink_error (fullContainerPath f) (fs w) with
  | (Some (code, message), files) =>
      if bool_decide (code ≠ "ENOENT"%string) then
        World files
          (console w
           ++ [js "Failed to cleanup env file " ++ fullContainerPath f
               ++ js ": " ++ js message])
      else World files (console w)
  | (None, files) => World files (console w)
  end.

(** [files.get(k)], [files.has(k)], [files.delete(k)] and [files.set(k, v)]
    of a [Map], kept as the list of its entries in insertion order. *)
Fixpoint Map_get {V} (k : jsstring) (m : list (jsstring * V)) : option V :=
  match m with
  | [] => None
  | (k', v) :: rest => if bool_decide (k' = k) then Some v else Map_get k rest
  end.

Definition Map_has {V} (k : jsstring) (m : list (jsstring * V)) : bool :=
  bool_decide (is_Some (Map_get k m)).

Definition Map_delete {V} (k : jsstring) (m : list (jsstring * V))
  : list (jsstring * V) :=
  filter (λ kv, kv.1 ≠ k) m.

Fixpoint Map_set {V} (k : jsstring) (v : V) (m : list (jsstring * V))
  : list (jsstring * V) :=
  match m with
  | [] => [(k, v)]
  | (k', v') :: rest =>
      if bool_decide (k' = k) then (k, v) :: rest
      else (k', v') :: Map_set k v rest
  end.

(** The state of a manager: its two base paths and the [files] map. *)
Record manager := Manager {
  base_containerPath : jsstring;
  base_hostPath : jsstring;
  files : list (jsstring * env_file)
}.

(** [createEnvFileManager(options)]: the guard, the empty [files] map, and
    the directory creation whose failure is only logged. *)
Definition createEnvFileManager (h : host) (containerPath hostPath : jsstring)
    (w : world) : string + (manager * world) :=
  if bool_decide (containerPath = []) || bool_decide (hostPath = []) then
    inl "containerPath and hostPath are required"%string
  else
    inr (Manager containerPath hostPath [],
         match mkdirSync h containerPath with
         | Some (code, message) =>
             if bool_decide (code ≠ "EEXIST"%string) then
               World (fs w)
                 (console w
                  ++ [js "Warning: Could not create env directory: "
                      ++ js message])
             else w
         | None => w
         end).

(** The manager's [cleanup(sessionId)]. *)
Definition manager_cleanup
    (unlink_error : jsstring → option (string * string))
    (sessionId : jsstring) (st : manager * world) : manager * world :=
  match Map_get sessionId (files st.1) with
  | Some envFile =>
      (Manager (base_containerPath st.1) (base_hostPath st.1)
         (Map_delete sessionId (files st.1)),
       envFile_cleanup unlink_error envFile st.2)
  | None => st
  end.

(** The manager's [create(sessionId, credentials)]; [inl] is the error
    thrown by [createSessionEnvFile], after the clean-up of an existing
    file. *)
Definition manager_create (h : host)
    (unlink_error : jsstring → option (string * string))
    (sessionId : jsstring) (credentials : option (list (jsstring * value)))
    (st : manager * world) : (string + env_file) * (manager * world) :=
  let st :=
    if Map_has sessionId (files st.1)
    then manager_cleanup unlink_error sessionId st
    else st in
  match createSessionEnvFile h
          (EnvOptions sessionId (base_containerPath st.1)
             (base_hostPath st.1) credentials)
          (fs st.2) with
  | inl e => (inl e, st)
  | inr (envFile, files') =>
      (inr envFile,
       (Manager (base_containerPath st.1) (base_hostPath st.1)
          (Map_set sessionId envFile (files st.1)),
        World files' (console st.2)))
  end.

(** The manager's [cleanupAll()]: the loop over the entries of [files],
    each removed while it is visited. *)
Definition manager_cleanupAll
    (unlink_error : jsstring → option (string * string))
    (st : manager * world) : manager * world :=
  fold_left (λ st sessionId, manager_cleanup unlink_error sessionId st)
    ((files st.1).*1) st.

(** The manager's [get(sessionId)] and [size()]. *)
Definition manager_get (sessionId : jsstring) (m : manager)
  : option env_file :=
  Map_get sessionId (files m).

Definition manager_size (m : manager) : Z := Z.of_nat (length (files m)).

(** The file name of a session: [`session-${sessionId}.env`]. *)
Definition filename (sessionId : jsstring) : jsstring :=
  js "session-" ++ sessionId ++ js ".env".

(** One call of a method of a manager, with the way the file system
    answers during that call. *)
Inductive manager_call :=
| MCreate (mkdir : jsstring → option (string * string))
    (write : jsstring → option string)
    (unlink_error : jsstring → option (string * string))
    (sessionId : jsstring) (credentials : option (list (jsstring * value)))
| MCleanup (unlink_error : jsstring → option (string * string))
    (sessionId : jsstring)
| MCleanupAll (unlink_error : jsstring → option (string * string)).

(** The manager and the world after a call; an error thrown by [create]
    is caught by the caller. *)
Definition manager_step (join : jsstring → jsstring → jsstring)
    (st : manager * world) (c : manager_call) : manager * world :=
  match c with
  | MCreate mkdir write unlink_error sessionId credentials =>
      (manager_create (Host join mkdir write) unlink_error sessionId
         credentials st).2
  | MCleanup unlink_error sessionId =>
      manager_cleanup unlink_error sessionId st
  | MCleanupAll unlink_error => manager_cleanupAll unlink_error st
  end.

(** The manager and the world after a sequence of calls. *)
Definition manager_run (join : jsstring → jsstring → jsstring)
    (calls : list manager_call) (st : manager * world) : manager * world :=
  fold_left (manager_step join) calls st.

Definition is_create (c : manager_call) : bool :=
  match c with MCreate _ _ _ _ _ => true | _ => false end.

(** What holds of a manager made for the base paths [cp] and [hp]: a
    session is tracked once, its id is not empty, and its two paths are the
    base paths joined with the session's file name. *)
Definition manager_ok (join : jsstring → jsstring → jsstring)
    (cp hp : jsstring) (m : manager) : Prop :=
  base_containerPath m = cp ∧ base_hostPath m = hp ∧
  NoDup ((files m).*1) ∧
  Forall (λ kv : jsstring * env_file,
            kv.1 ≠ [] ∧
            kv.2 = EnvFileInfo (join cp (filename kv.1))
                     (join hp (filename kv.1)))
    (files m).

End EnvFileManager.

(** ** reconnect-lock.js *)

Module ReconnectLock.

(** How an awaited call ends. *)
Inductive outcome (A : Type) :=
| Returned (v : A)
| Thrown (e : string).
Arguments Returned {A} v.
Arguments Thrown {A} e.

(** The state of a lock is its variable [locked]. *)
Definition createReconnectionLock : bool := false.

(** [isLocked()]. *)
Definition isLocked (locked : bool) : bool := locked.

(** [acquire()]: the returned flag and the new value of [locked]. *)
Definition acquire (locked : bool) : bool * bool :=
  if locked then (false, locked) else (true, true).

(** [release()]. *)
Definition release (locked : bool) : bool := false.

(** [withLock(fn)]. [fn] stands for all that happens between the call of
    [fn()] and the settling of its promise: how it ends, and what the calls
    made on the lock in the meantime (by [fn] or by others) leave in
    [locked]. [None] is the [null] returned when the lock is not
    acquired. *)
Definition withLock {A} (fn : bool → outcome A * bool) (locked : bool)
  : outcome (option A) * bool :=
  let '(acquired, locked) := acquire locked in
  if negb acquired then (Returned None, locked)
  else
    let '(result, locked) := fn locked in
    let locked := release locked in
    match result with
    | Returned v => (Returned (Some v), locked)
    | Thrown e => (Thrown e, locked)
    end.

(** One synchronous call on a lock. *)
Inductive lock_call := Acquire | Release | IsLocked.

#[export] Instance lock_call_eq_dec : EqDecision lock_call.
Proof. solve_decision. Defined.

(** The value a call returns ([release] returns nothing) and the new value
    of [locked]. *)
Definition lock_step (locked : bool) (c : lock_call) : option bool * bool :=
  match c with
  | Acquire => let '(ok, locked) := acquire locked in (Some ok, locked)
  | Release => (None, release locked)
  | IsLocked => (Some (isLocked locked), locked)
  end.

(** The returned values and the final value of [locked] after a sequence
    of calls. *)
Fixpoint lock_run (calls : list lock_call) (locked : bool)
  : list (option bool) * bool :=
  match calls with
  | [] => ([], locked)
  | c :: rest =>
      let '(r, locked) := lock_step locked c in
      let '(rs, locked) := lock_run rest locked in
      (r :: rs, locked)
  end.

End ReconnectLock.

(** * Properties *)

(** ** The rate limiter *)

Module RateLimitFacts.
Import RateLimit.

(** [Math_ceil_div a b] is the least integer that is not below [a / b]. *)
Lemma Math_ceil_div_spec (a b : Z) :
  0 < b →
  b * (Math_ceil_div a b - 1) < a ∧ a ≤ b * Math_ceil_div a b.
Proof.
  intros Hb. unfold Math_ceil_div.
  pose proof (Z.div_mod (- a) b ltac:(lia)) as Hdm.
  pose proof (Z.mod_pos_bound (- a) b Hb) as Hm.
  nia.
Qed.

Section sweep.
Context (o : options) (key : list Z) (now now_sweep : Z).
Implicit Types records : gmap (list Z) record.

Local Abbreviation swept := (swept o key now now_sweep).

Lemma cleanup_lookup_Some records t k r :
  cleanup t records !! k = Some r ↔ records !! k = Some r ∧ t ≤ resetAt r.
Proof.
  unfold cleanup. rewrite map_lookup_filter_Some. simpl.
  split; intros [? ?]; split; auto; lia.
Qed.

Lemma cleanup_subseteq records t : cleanup t records ⊆ records.
Proof. apply map_filter_subseteq. Qed.

Lemma delete_expired_subseteq records :
  delete_expired key now records ⊆ records.
Proof.
  unfold delete_expired. destruct (records !! key); [|done].
  case_bool_decide; [apply delete_subseteq | done].
Qed.

Lemma delete_expired_live records k r :
  records !! k = Some r → now ≤ resetAt r →
  delete_expired key now records !! k = Some r.
Proof.
  intros Hk Hlive. unfold delete_expired.
  destruct (records !! key) as [e|] eqn:He; [|done].
  case_bool_decide; [|done].
  rewrite lookup_delete_ne; [done|]. intros ->. simplify_eq. lia.
Qed.


Lemma delete_expired_key records :
  delete_expired key now records !! key =
  match records !! key with
  | Some r => if bool_decide (now > resetAt r) then None else Some r
  | None => None
  end.
Proof.
  unfold delete_expired. destruct (records !! key) as [e|] eqn:He.
  - case_bool_decide; [apply lookup_delete_eq | done].
  - done.
Qed.

Lemma swept_subseteq records : swept records ⊆ records.
Proof.
  unfold RateLimit.swept, cleanup_if_large. case_bool_decide.
  - etrans; [apply cleanup_subseteq | apply delete_expired_subseteq].
  - apply delete_expired_subseteq.
Qed.

(** A record that has expired at neither clock reading survives both
    statements. *)
Lemma swept_live records k r :
  records !! k = Some r → now ≤ resetAt r → now_sweep ≤ resetAt r →
  swept records !! k = Some r.
Proof.
  intros Hk Hlive Hlive'. unfold RateLimit.swept, cleanup_if_large.
  pose proof (delete_expired_live _ _ _ Hk Hlive) as Hd.
  case_bool_decide; [|done].
  by apply cleanup_lookup_Some.
Qed.

(** Whatever is left was there before. *)
Lemma swept_lookup_Some records k r :
  swept records !! k = Some r → records !! k = Some r.
Proof. intros Hs. exact (lookup_weaken _ _ _ _ Hs (swept_subseteq _)). Qed.

(** The record that [check] finds for its key has not expired at the
    clock reading of [check]. *)
Lemma swept_key_live records r :
  swept records !! key = Some r → now ≤ resetAt r.
Proof.
  intros Hs. assert (delete_expired key now records !! key = Some r) as Hd.
  { unfold RateLimit.swept, cleanup_if_large in Hs.
    case_bool_decide; [|done]. by apply cleanup_lookup_Some in Hs as [? _]. }
  rewrite delete_expired_key in Hd.
  destruct (records !! key) as [r'|]; [|done].
  case_bool_decide; [done|]. simplify_eq. lia.
Qed.

(** An expired record of the key is not found. *)
Lemma swept_key_expired records :
  (∀ r, records !! key = Some r → now > resetAt r) →
  swept records !! key = None.
Proof.
  intros Hdead. destruct (swept records !! key) as [r|] eqn:Hs; [|done].
  pose proof (swept_key_live _ _ Hs).
  apply swept_lookup_Some, Hdead in Hs. lia.
Qed.

(** What is removed had expired at one of the two clock readings. *)
Lemma swept_lookup_None records k r :
  records !! k = Some r → swept records !! k = None →
  now > resetAt r ∨ now_sweep > resetAt r.
Proof.
  intros Hk Hs.
  destruct (decide (now ≤ resetAt r)) as [Hlive|]; [|lia].
  destruct (decide (now_sweep ≤ resetAt r)) as [Hlive'|]; [|lia].
  rewrite (swept_live _ _ _ Hk Hlive Hlive') in Hs. done.
Qed.

(** The clean-up statements do nothing once the expired record of the
    key is gone. *)
Lemma swept_delete records r :
  records !! key = Some r → now > resetAt r →
  swept (delete key records) = swept records.
Proof.
  intros Hk Hexp. unfold RateLimit.swept. f_equal.
  unfold delete_expired at 2. rewrite Hk, bool_decide_eq_true_2 by done.
  unfold delete_expired. by rewrite lookup_delete_eq.
Qed.

(** Without expired records nothing is removed. *)
Lemma swept_all_live records :
  (∀ k r, records !! k = Some r → now ≤ resetAt r ∧ now_sweep ≤ resetAt r) →
  swept records = records.
Proof.
  intros Hlive. apply map_eq. intros k.
  destruct (records !! k) as [r|] eqn:Hk.
  - destruct (Hlive k r Hk). by apply swept_live.
  - destruct (swept records !! k) as [r|] eqn:Hs; [|done].
    apply swept_lookup_Some in Hs. congruence.
Qed.

(** [check] written over the swept map. *)
Lemma check_unfold increment records :
  check o key increment now now_sweep records =
  match swept records !! key with
  | None =>
      (CheckResult true (maxAttempts o - 1) None,
       if increment
       then <[key := Rec 1 (now + windowMs o)]> (swept records)
       else swept records)
  | Some r =>
      if bool_decide (count r >= maxAttempts o) then
        (CheckResult false 0 (Some (Math_ceil_div (resetAt r - now) 1000)),
         swept records)
      else if increment then
        (CheckResult true (maxAttempts o - (count r + 1)) None,
         <[key := Rec (count r + 1) (resetAt r)]> (swept records))
      else
        (CheckResult true (maxAttempts o - count r) None, swept records)
  end.
Proof.
  unfold check, RateLimit.swept.
  destruct (cleanup_if_large o now_sweep (delete_expired key now records)
              !! key); [|done].
  case_bool_decide; [done|]. by destruct increment.
Qed.

(** ** Steps of [check] *)

(** The first call of a window opens it. *)
Lemma check_opens_window records :
  (∀ r, records !! key = Some r → now > resetAt r) →
  allowed (check o key true now now_sweep records).1 = true ∧
  (check o key true now now_sweep records).2 !! key
    = Some (Rec 1 (now + windowMs o)).
Proof.
  intros Hdead. rewrite check_unfold, swept_key_expired by done.
  simpl. by rewrite lookup_insert_eq.
Qed.

(** A call inside the window and under the limit counts one more. *)
Lemma check_counts records r :
  records !! key = Some r → now ≤ resetAt r → now_sweep ≤ resetAt r →
  count r < maxAttempts o →
  allowed (check o key true now now_sweep records).1 = true ∧
  (check o key true now now_sweep records).2 !! key
    = Some (Rec (count r + 1) (resetAt r)).
Proof.
  intros Hk Hlive Hlive' Hc.
  rewrite check_unfold, (swept_live _ _ _ Hk Hlive Hlive').
  rewrite bool_decide_eq_false_2 by lia. simpl.
  by rewrite lookup_insert_eq.
Qed.

End sweep.

Lemma check_seq_counts (o : options) (key : list Z) (ts : list (Z * Z)) :
  ∀ (records : gmap (list Z) record) c R,
  records !! key = Some (Rec c R) →
  Forall (λ t, t.1 ≤ R ∧ t.2 ≤ R) ts →
  c + Z.of_nat (length ts) ≤ maxAttempts o →
  Forall (λ res, allowed res = true) (check_seq o key ts records).1 ∧
  length (check_seq o key ts records).1 = length ts ∧
  (check_seq o key ts records).2 !! key
    = Some (Rec (c + Z.of_nat (length ts)) R).
Proof.
  induction ts as [|t ts IH]; intros records c R Hk Hts Hc; simpl.
  - split; [constructor|]. split; [done|]. rewrite Hk. do 2 f_equal. lia.
  - apply Forall_cons in Hts as [[Ht Ht'] Hts]. simpl length in Hc.
    destruct (check_counts o key t.1 t.2 records _ Hk) as [Hal Hrec];
      [simpl; lia..|].
    destruct (check o key true t.1 t.2 records) as [res records1].
    simpl in Hal, Hrec.
    specialize (IH records1 (c + 1) R Hrec Hts ltac:(lia)).
    destruct (check_seq o key ts records1) as [rs records2].
    simpl fst in *. simpl snd in *. destruct IH as (Hall & Hlen & Hfin).
    split; [by constructor|]. split; [simpl; by rewrite Hlen|].
    rewrite Hfin. do 2 f_equal. lia.
Qed.

(** C2. With [maxAttempts = N], starting from a key without a live
    record, [N] successive calls [check(key)] whose clock readings all lie
    before the [resetAt] of the window opened by the first one are all
    allowed; a further call before [resetAt] is blocked, and a further call
    after [resetAt] is allowed again. *)
Theorem check_window (o : options) (key : list Z)
    (records : gmap (list Z) record) (t1 : Z * Z) (ts : list (Z * Z)) :
  windowMs o > 0 →
  (∀ r, records !! key = Some r → t1.1 > resetAt r) →
  Z.of_nat (length (t1 :: ts)) = maxAttempts o →
  Forall (λ t, t.1 < t1.1 + windowMs o ∧ t.2 < t1.1 + windowMs o) ts →
  Forall (λ res, allowed res = true)
    (check_seq o key (t1 :: ts) records).1 ∧
  length (check_seq o key (t1 :: ts) records).1 = length (t1 :: ts) ∧
  (∀ t t', t < t1.1 + windowMs o → t' < t1.1 + windowMs o →
     allowed (check o key true t t'
                (check_seq o key (t1 :: ts) records).2).1 = false) ∧
  (∀ t t', t > t1.1 + windowMs o →
     allowed (check o key true t t'
                (check_seq o key (t1 :: ts) records).2).1 = true).
Proof.
  intros HW Hdead HN Hts. simpl check_seq. simpl length in HN.
  destruct (check_opens_window o key t1.1 t1.2 records Hdead) as [Hal Hrec].
  destruct (check o key true t1.1 t1.2 records) as [res records1].
  simpl in Hal, Hrec.
  destruct (check_seq_counts o key ts records1 1 (t1.1 + windowMs o) Hrec)
    as (Hall & Hlen & Hfin).
  { eapply Forall_impl; [exact Hts|]. simpl. lia. }
  { lia. }
  destruct (check_seq o key ts records1) as [rs records2].
  simpl fst in *. simpl snd in *.
  split; [by constructor|]. split; [simpl; by rewrite Hlen|]. split.
  - intros t t' Ht Ht'. rewrite check_unfold.
    rewrite (swept_live _ _ _ _ _ _ _ Hfin) by (simpl; lia).
    simpl. by rewrite bool_decide_eq_true_2 by lia.
  - intros t t' Ht. apply check_opens_window.
    intros r Hr. rewrite Hfin in Hr. simplify_eq. simpl. lia.
Qed.

Lemma check_window_witness :
  let o := Options 60000 2 1000 in
  let run := check_seq o (js "1.2.3.4") [(1000, 1000); (2000, 2000)] ∅ in
  Forall (λ res, allowed res = true) run.1 ∧
  length run.1 = 2%nat ∧
  (∀ t t', t < 1000 + 60000 → t' < 1000 + 60000 →
     allowed (check o (js "1.2.3.4") true t t' run.2).1 = false) ∧
  (∀ t t', t > 1000 + 60000 →
     allowed (check o (js "1.2.3.4") true t t' run.2).1 = true).
Proof.
  apply (check_window (Options 60000 2 1000) (js "1.2.3.4") ∅
           (1000, 1000) [(2000, 2000)]).
  - simpl. lia.
  - intros r Hr. rewrite lookup_empty in Hr. discriminate Hr.
  - reflexivity.
  - repeat constructor; simpl; lia.
Defined.

(** C7. When [check(key)] finds a record for the key that has not expired
    and whose count has reached [maxAttempts], the result is
    [allowed = false], [remaining = 0] and [retryAfter] the least number of
    whole seconds covering [resetAt - now]; the record stays as it is. *)
Theorem check_blocked (o : options) (key : list Z) (increment : bool)
    (now now_sweep : Z) (records : gmap (list Z) record) (r : record) :
  swept o key now now_sweep records !! key = Some r →
  count r >= maxAttempts o →
  records !! key = Some r ∧ now ≤ resetAt r ∧
  (check o key increment now now_sweep records).1
    = CheckResult false 0 (Some (Math_ceil_div (resetAt r - now) 1000)) ∧
  1000 * (Math_ceil_div (resetAt r - now) 1000 - 1) < resetAt r - now
    ≤ 1000 * Math_ceil_div (resetAt r - now) 1000 ∧
  (check o key increment now now_sweep records).2 !! key = Some r.
Proof.
  intros Hfound Hc. rewrite check_unfold, Hfound.
  rewrite bool_decide_eq_true_2 by done. simpl.
  split; [by eapply swept_lookup_Some|].
  split; [by eapply swept_key_live|].
  split; [done|]. split; [apply Math_ceil_div_spec; lia|]. done.
Qed.

Lemma check_blocked_witness :
  let o := Options 60000 2 1000 in
  let records := {[ js "1.2.3.4" := Rec 2 61000 ]} in
  (check o (js "1.2.3.4") true 2500 2500 records).1
    = CheckResult false 0 (Some 59) ∧
  (check o (js "1.2.3.4") true 2500 2500 records).2 !! js "1.2.3.4"
    = Some (Rec 2 61000).
Proof.
  destruct (check_blocked (Options 60000 2 1000) (js "1.2.3.4") true 2500
              2500 {[ js "1.2.3.4" := Rec 2 61000 ]} (Rec 2 61000))
    as (_ & _ & Hres & _ & Hrec).
  - vm_compute. reflexivity.
  - simpl. lia.
  - split; [exact Hres | exact Hrec].
Defined.

(** The same from the stored record: it is found when it has expired at
    neither clock reading. *)
Corollary check_blocked_live (o : options) (key : list Z) (increment : bool)
    (now now_sweep : Z) (records : gmap (list Z) record) (r : record) :
  records !! key = Some r → now ≤ resetAt r → now_sweep ≤ resetAt r →
  count r >= maxAttempts o →
  check o key increment now now_sweep records
    = (CheckResult false 0 (Some (Math_ceil_div (resetAt r - now) 1000)),
       swept o key now now_sweep records) ∧
  swept o key now now_sweep records !! key = Some r.
Proof.
  intros Hk Hlive Hlive' Hc.
  pose proof (swept_live o key now now_sweep _ _ _ Hk Hlive Hlive') as Hs.
  by rewrite check_unfold, Hs, bool_decide_eq_true_2.
Qed.

(** ** What the operations do to stored records *)

(** A record whose [resetAt] equals the clock reading is still live: both
    [check] and [recordFailure] read it and increment its count. *)
Lemma count_incremented_at_resetAt :
  let o := Options 60000 5 1000 in
  let records := {[ js "1.2.3.4" := Rec 1 100 ]} in
  100 >= resetAt (Rec 1 100) ∧
  (check o (js "1.2.3.4") true 100 100 records).2 !! js "1.2.3.4"
    = Some (Rec 2 100) ∧
  recordFailure o (js "1.2.3.4") 100 records !! js "1.2.3.4"
    = Some (Rec 2 100).
Proof. vm_compute. split; [discriminate|]. split; reflexivity. Qed.

(** C4 (amended). A call of [check] or [recordFailure] leaves every stored
    record unchanged, or removes it when it has expired (a clock reading
    of the call is past its [resetAt]), or, for the key of the call,
    increments its count while it is live ([now <= resetAt]), or replaces
    it by a fresh record with count 1 when it has expired. A record of the
    key with [now > resetAt] is treated as absent: the call behaves as if
    it had been deleted before. *)
Theorem records_step (o : options) (key : list Z) (now now_sweep : Z)
    (records : gmap (list Z) record) :
  (∀ increment k r, records !! k = Some r →
     (check o key increment now now_sweep records).2 !! k = Some r
     ∨ ((check o key increment now now_sweep records).2 !! k = None
        ∧ (now > resetAt r ∨ now_sweep > resetAt r))
     ∨ (k = key ∧ increment = true ∧ now ≤ resetAt r
        ∧ count r < maxAttempts o
        ∧ (check o key increment now now_sweep records).2 !! k
            = Some (Rec (count r + 1) (resetAt r)))
     ∨ (k = key ∧ increment = true
        ∧ (now > resetAt r ∨ now_sweep > resetAt r)
        ∧ (check o key increment now now_sweep records).2 !! k
            = Some (Rec 1 (now + windowMs o)))) ∧
  (∀ k r, records !! k = Some r →
     (k ≠ key ∧ recordFailure o key now records !! k = Some r)
     ∨ (k = key ∧ now ≤ resetAt r
        ∧ recordFailure o key now records !! k
            = Some (Rec (count r + 1) (resetAt r)))
     ∨ (k = key ∧ now > resetAt r
        ∧ recordFailure o key now records !! k
            = Some (Rec 1 (now + windowMs o)))) ∧
  (∀ increment r, records !! key = Some r → now > resetAt r →
     check o key increment now now_sweep records
       = check o key increment now now_sweep (delete key records)
     ∧ recordFailure o key now records
       = recordFailure o key now (delete key records)).
Proof.
  split; [|split].
  - intros increment k r Hk. rewrite check_unfold.
    assert ((swept o key now now_sweep records !! k = Some r)
            ∨ (swept o key now now_sweep records !! k = None
               ∧ (now > resetAt r ∨ now_sweep > resetAt r))) as Hsw.
    { destruct (swept o key now now_sweep records !! k) as [r'|] eqn:Hs.
      - left. apply swept_lookup_Some in Hs. congruence.
      - right. split; [done|]. by eapply swept_lookup_None. }
    destruct (decide (k = key)) as [->|Hne].
    + destruct Hsw as [Hs|[Hs Hexp]]; rewrite Hs.
      * pose proof (swept_key_live _ _ _ _ _ _ Hs) as Hlive.
        case_bool_decide as Hfull; simpl; [by left|].
        destruct increment; simpl; [|by left].
        right. right. left. rewrite lookup_insert_eq.
        repeat split; try done; lia.
      * destruct increment; simpl; [|by (right; left)].
        right. right. right. by rewrite lookup_insert_eq.
    + destruct (swept o key now now_sweep records !! key) as [rk|].
      * case_bool_decide; simpl; [tauto|].
        destruct increment; simpl; [|tauto].
        rewrite lookup_insert_ne by done. tauto.
      * destruct increment; simpl; [|tauto].
        rewrite lookup_insert_ne by done. tauto.
  - intros k r Hk. unfold recordFailure.
    destruct (decide (k = key)) as [->|Hne].
    + rewrite Hk. right. case_bool_decide.
      * right. by rewrite lookup_insert_eq.
      * left. rewrite lookup_insert_eq. repeat split; try done; lia.
    + left. split; [done|].
      destruct (records !! key) as [rk|]; [case_bool_decide|];
        by rewrite lookup_insert_ne.
  - intros increment r Hk Hexp. split.
    + by rewrite !check_unfold, (swept_delete _ _ _ _ _ _ Hk Hexp).
    + unfold recordFailure.
      rewrite Hk, lookup_delete_eq, bool_decide_eq_true_2 by done.
      by rewrite insert_delete_eq.
Qed.

(** [check(key, false)] on a key whose record has expired deletes that
    record: the map and its size change. *)
Lemma check_without_increment_deletes :
  let o := Options 60000 5 1000 in
  let records := {[ js "1.2.3.4" := Rec 1 100 ]} in
  (check o (js "1.2.3.4") false 101 101 records).2 ≠ records ∧
  size_ (check o (js "1.2.3.4") false 101 101 records).2 ≠ size_ records.
Proof. vm_compute. split; discriminate. Qed.

(** C6 (amended). [check(key, false)] creates no record and changes no
    count: what is left in the map was there before, unchanged. It only
    removes records that have expired, so every record that is live at
    both clock readings stays, the size does not grow, and a map without
    expired records is left as it is. When the key has no live record the
    result is [allowed = true] with [remaining = maxAttempts - 1]; when it
    has a live record with [count < maxAttempts] the result is
    [allowed = true] with [remaining = maxAttempts - count]. *)
Theorem check_without_increment (o : options) (key : list Z)
    (now now_sweep : Z) (records : gmap (list Z) record) :
  (check o key false now now_sweep records).2 ⊆ records ∧
  (∀ k r, records !! k = Some r → now ≤ resetAt r → now_sweep ≤ resetAt r →
     (check o key false now now_sweep records).2 !! k = Some r) ∧
  (size (check o key false now now_sweep records).2 ≤ size records)%nat ∧
  ((∀ k r, records !! k = Some r →
      now ≤ resetAt r ∧ now_sweep ≤ resetAt r) →
     (check o key false now now_sweep records).2 = records) ∧
  ((∀ r, records !! key = Some r → now > resetAt r) →
     (check o key false now now_sweep records).1
       = CheckResult true (maxAttempts o - 1) None) ∧
  (∀ r, records !! key = Some r → now ≤ resetAt r → now_sweep ≤ resetAt r →
     count r < maxAttempts o →
     (check o key false now now_sweep records).1
       = CheckResult true (maxAttempts o - count r) None).
Proof.
  assert ((check o key false now now_sweep records).2
          = swept o key now now_sweep records) as Hstate.
  { rewrite check_unfold.
    destruct (swept o key now now_sweep records !! key);
      [case_bool_decide|]; done. }
  rewrite Hstate. repeat split.
  - apply swept_subseteq.
  - intros k r. apply swept_live.
  - apply map_subseteq_size, swept_subseteq.
  - apply swept_all_live.
  - intros Hdead. by rewrite check_unfold, swept_key_expired.
  - intros r Hk Hlive Hlive' Hc.
    rewrite check_unfold, (swept_live _ _ _ _ _ _ _ Hk Hlive Hlive').
    by rewrite bool_decide_eq_false_2 by lia.
Qed.

End RateLimitFacts.

(** ** The session env file *)

Module EnvFileFacts.
Import JS EnvFile.

Implicit Types o : list (list Z * value).


#[local] Instance index_le_total : Total index_le.
Proof. intros a b. unfold index_le. lia. Qed.

#[local] Instance index_le_transitive : Transitive index_le.
Proof. intros a b c. unfold index_le. lia. Qed.









End EnvFileFacts.

(** ** The built-ins *)

Module JSFacts.
Import JS.

(** Case analysis on the integer comparisons of a goal. *)
Ltac zcases :=
  repeat match goal with
    | |- context [?a <=? ?b] => destruct (Z.leb_spec a b); try lia
    | |- context [?a <? ?b] => destruct (Z.ltb_spec a b); try lia
    | |- context [?a =? ?b] => destruct (Z.eqb_spec a b); try lia
    end.

(** *** Decimal numerals *)

Lemma digits_of_digits fuel : ∀ n, 0 ≤ n → digits (digits_of fuel n).
Proof.
  induction fuel as [|fuel IH]; intros n Hn; simpl; [constructor|].
  destruct (Z.ltb_spec n 10).
  - repeat constructor; lia.
  - apply Forall_app. split.
    + apply IH. apply Z.div_pos; lia.
    + pose proof (Z.mod_pos_bound n 10 ltac:(lia)).
      repeat constructor; lia.
Qed.

Lemma digits_of_nonempty fuel n : digits_of (S fuel) n ≠ [].
Proof.
  simpl. destruct (n <? 10); [done|].
  intros Heq. apply app_eq_nil in Heq as [_ Heq]. discriminate Heq.
Qed.

Lemma digits_value_snoc ds d :
  digits_value (ds ++ [d]) = 10 * digits_value ds + (d - 48).
Proof. unfold digits_value. by rewrite fold_left_app. Qed.

Lemma digits_of_value fuel : ∀ n,
  0 ≤ n < 2 ^ Z.of_nat fuel → digits_value (digits_of fuel n) = n.
Proof.
  induction fuel as [|fuel IH]; intros n Hn.
  - simpl in *. assert (n = 0) as -> by lia. done.
  - simpl digits_of. destruct (Z.ltb_spec n 10).
    + unfold digits_value. simpl. lia.
    + rewrite digits_value_snoc, IH.
      * pose proof (Z.div_mod n 10 ltac:(lia)). lia.
      * rewrite Nat2Z.inj_succ, Z.pow_succ_r in Hn by lia.
        split; [apply Z.div_pos; lia|].
        apply Z.div_lt_upper_bound; lia.
Qed.

Lemma log2_fuel n : 0 ≤ n → n < 2 ^ Z.of_nat (S (Z.to_nat (Z.log2 n))).
Proof.
  intros Hn. rewrite Nat2Z.inj_succ, Z2Nat.id by apply Z.log2_nonneg.
  destruct (decide (n = 0)) as [->|]; [done|].
  apply Z.log2_spec. lia.
Qed.

Lemma take_digits_all ds : digits ds → take_digits ds = ds.
Proof.
  induction 1 as [|c ds Hc _ IH]; [done|]. simpl. unfold is_digit.
  rewrite IH. by zcases.
Qed.

Lemma skip_white_space_digit c s :
  is_white_space c = false → skip_white_space (c :: s) = c :: s.
Proof. intros Hc. simpl. by rewrite Hc. Qed.

(** The numeral of a number, and that [parseInt] reads it back. *)
Lemma Number_toString_spec n :
  ∃ ds, ds ≠ [] ∧ digits ds ∧ digits_value ds = Z.abs n ∧
        Number_toString n = if n <? 0 then 45 :: ds else ds.
Proof.
  unfold Number_toString. destruct (Z.ltb_spec n 0).
  - exists (digits_of (S (Z.to_nat (Z.log2 (- n)))) (- n)).
    split; [apply digits_of_nonempty|].
    split; [apply digits_of_digits; lia|]. split; [|done].
    rewrite digits_of_value; [lia|]. split; [lia|]. apply log2_fuel. lia.
  - exists (digits_of (S (Z.to_nat (Z.log2 n))) n).
    split; [apply digits_of_nonempty|].
    split; [by apply digits_of_digits|]. split; [|done].
    rewrite digits_of_value; [lia|]. split; [lia|]. by apply log2_fuel.
Qed.

Lemma parseInt10_Number_toString n : parseInt10 (Number_toString n) = Some n.
Proof.
  destruct (Number_toString_spec n) as (ds & Hne & Hds & Hval & ->).
  destruct ds as [|d ds]; [done|].
  pose proof (Forall_inv Hds) as Hd. simpl in Hd.
  unfold parseInt10. destruct (Z.ltb_spec n 0).
  - rewrite skip_white_space_digit by done.
    rewrite Z.eqb_refl. rewrite take_digits_all by done.
    f_equal. lia.
  - rewrite skip_white_space_digit
      by (unfold is_white_space; zcases; done).
    destruct (Z.eqb_spec d 45); [lia|]. destruct (Z.eqb_spec d 43); [lia|].
    rewrite take_digits_all by done. f_equal. lia.
Qed.

(** A numeral is made of ['-'] and digits. *)
Lemma Number_toString_chars n :
  Forall (λ c, c = 45 ∨ 48 ≤ c ≤ 57) (Number_toString n).
Proof.
  destruct (Number_toString_spec n) as (ds & _ & Hds & _ & ->).
  assert (Forall (λ c, c = 45 ∨ 48 ≤ c ≤ 57) ds)
    by (eapply Forall_impl; [exact Hds|]; simpl; auto).
  destruct (n <? 0); [constructor; auto|done].
Qed.

(** *** split, lastIndexOf, slice *)

Lemma split_nonempty sep s : split sep s ≠ [].
Proof.
  destruct s as [|c s]; simpl; [done|].
  destruct (c =? sep); [done|]. by destruct (split sep s).
Qed.

Lemma split_no_sep sep s : sep ∉ s → split sep s = [s].
Proof.
  induction s as [|c s IH]; intros Hs; [done|]. simpl.
  apply not_elem_of_cons in Hs as [Hc Hs].
  destruct (Z.eqb_spec c sep); [congruence|]. by rewrite IH.
Qed.

Lemma split_app sep a b :
  sep ∉ a → split sep (a ++ sep :: b) = a :: split sep b.
Proof.
  induction a as [|c a IH]; intros Ha; simpl.
  - by rewrite Z.eqb_refl.
  - apply not_elem_of_cons in Ha as [Hc Ha].
    destruct (Z.eqb_spec c sep); [congruence|]. by rewrite IH.
Qed.

Lemma lastIndexOf_bound c s :
  -1 ≤ lastIndexOf c s ∧ lastIndexOf c s < Z.of_nat (length s).
Proof.
  induction s as [|x s IH]; simpl; [lia|].
  destruct (Z.leb_spec 0 (lastIndexOf c s)); [lia|].
  destruct (x =? c); lia.
Qed.

Lemma lastIndexOf_absent c s : c ∉ s → lastIndexOf c s = -1.
Proof.
  induction s as [|x s IH]; intros Hs; [done|]. simpl.
  apply not_elem_of_cons in Hs as [Hc Hs]. rewrite IH by done. simpl.
  destruct (Z.eqb_spec x c); congruence.
Qed.

Lemma lastIndexOf_present c s : c ∈ s → 0 ≤ lastIndexOf c s.
Proof.
  induction s as [|x s IH]; intros Hs; [by apply elem_of_nil in Hs|].
  simpl. destruct (Z.leb_spec 0 (lastIndexOf c s)); [lia|].
  destruct (Z.eqb_spec x c); [lia|].
  apply elem_of_cons in Hs as [->|Hs]; [done|]. apply IH in Hs. lia.
Qed.

(** The last occurrence splits the string around it. *)
Lemma lastIndexOf_app c a b :
  c ∉ b → lastIndexOf c (a ++ c :: b) = Z.of_nat (length a).
Proof.
  intros Hb. induction a as [|x a IH]; simpl.
  - rewrite lastIndexOf_absent by done. simpl. by rewrite Z.eqb_refl.
  - rewrite IH. destruct (Z.leb_spec 0 (Z.of_nat (length a))); lia.
Qed.

Lemma lastIndexOf_split c s :
  0 ≤ lastIndexOf c s →
  ∃ a b, s = a ++ c :: b ∧ (c ∉ b) ∧ lastIndexOf c s = Z.of_nat (length a).
Proof.
  induction s as [|x s IH]; simpl; [lia|].
  destruct (Z.leb_spec 0 (lastIndexOf c s)) as [Hi|Hi].
  - intros _. destruct (IH Hi) as (a & b & -> & Hb & Hlen).
    exists (x :: a), b. simpl. rewrite Hlen. split; [done|]. split; [done|lia].
  - destruct (Z.eqb_spec x c) as [->|]; [|lia]. intros _.
    exists [], s. split; [done|]. split; [|done].
    intros Hin. apply lastIndexOf_present in Hin. lia.
Qed.

Lemma slice_prefix a b :
  slice (a ++ b) 0 (Z.of_nat (length a)) = a.
Proof.
  unfold slice, clamp_index. rewrite length_app. simpl.
  destruct (Z.ltb_spec (Z.of_nat (length a)) 0); [lia|].
  rewrite Z.min_l by lia. rewrite Z.min_l by lia.
  rewrite Z.sub_0_r, Nat2Z.id. change (Z.to_nat 0) with 0%nat.
  rewrite drop_0. by rewrite take_app_length.
Qed.

Lemma slice_from_suffix a c b :
  slice_from (a ++ c :: b) (Z.of_nat (length a) + 1) = b.
Proof.
  unfold slice_from, slice, clamp_index. rewrite length_app. simpl length.
  destruct (Z.ltb_spec (Z.of_nat (length a) + 1) 0); [lia|].
  destruct (Z.ltb_spec (Z.of_nat (length a + S (length b))) 0); [lia|].
  rewrite Z.min_l by lia. rewrite Z.min_l by lia.
  replace (Z.to_nat (Z.of_nat (length a) + 1)) with (length (a ++ [c]))
    by (rewrite length_app; simpl; lia).
  replace (a ++ c :: b) with ((a ++ [c]) ++ b)
    by (by rewrite <- (assoc_L (++))).
  rewrite drop_app_length. apply take_ge. lia.
Qed.

End JSFacts.

(** ** Hexadecimal and base64 *)

Module EncodingFacts.
Import Encoding JSFacts.

(** Induction three elements at a time, as the base64 encoder recurses. *)
Lemma list_ind3 {A} (P : list A → Prop) :
  P [] → (∀ x, P [x]) → (∀ x y, P [x; y]) →
  (∀ x y z l, P l → P (x :: y :: z :: l)) →
  ∀ l, P l.
Proof.
  intros H0 H1 H2 H3 l.
  assert (∀ n (l : list A), (length l ≤ n)%nat → P l) as Hn.
  { clear l. induction n as [|n IH]; intros l Hl.
    - destruct l; [done|simpl in Hl; lia].
    - destruct l as [|x [|y [|z l]]]; auto.
      apply H3, IH. simpl in Hl. lia. }
  by apply (Hn (length l)).
Qed.

(** Induction with one element of look-ahead, as the UTF-8 encoder pairs
    surrogates. *)
Lemma list_ind2 {A} (P : list A → Prop) :
  P [] → (∀ x, P [x]) →
  (∀ x y l, P l → P (y :: l) → P (x :: y :: l)) →
  ∀ l, P l.
Proof.
  intros H0 H1 H2 l.
  assert (P l ∧ ∀ x, P (x :: l)) as [? _]; [|done].
  induction l as [|y l [IH1 IH2]]; [by split|].
  split; [apply IH2|]. intros x. by apply H2.
Qed.

(** *** Hexadecimal *)

Lemma unhex_hex_digit n : 0 ≤ n < 16 → unhex (hex_digit n mod 256) = Some n.
Proof.
  intros Hn. unfold hex_digit. destruct (Z.ltb_spec n 10);
    rewrite Z.mod_small by lia; unfold unhex; zcases; simpl; f_equal; lia.
Qed.

Lemma hex_digit_not_dot n : 0 ≤ n < 16 → hex_digit n ≠ 46.
Proof. intros Hn. unfold hex_digit. destruct (n <? 10); lia. Qed.

Lemma hex_decode_encode b : octets b → hex_decode (hex_encode b) = b.
Proof.
  induction 1 as [|x b Hx _ IH]; [done|].
  simpl. rewrite !unhex_hex_digit.
  - rewrite IH. f_equal. pose proof (Z.div_mod x 16 ltac:(lia)). lia.
  - apply Z.mod_pos_bound. lia.
  - split; [apply Z.div_pos; lia | apply Z.div_lt_upper_bound; lia].
Qed.

Lemma hex_encode_no_dot b : octets b → 46 ∉ hex_encode b.
Proof.
  induction 1 as [|x b Hx _ IH]; simpl; [apply not_elem_of_nil|].
  rewrite !not_elem_of_cons. split; [|split; [|done]].
  - apply not_eq_sym, hex_digit_not_dot.
    split; [apply Z.div_pos; lia | apply Z.div_lt_upper_bound; lia].
  - apply not_eq_sym, hex_digit_not_dot, Z.mod_pos_bound. lia.
Qed.

(** *** Base64 *)

Lemma unbase64_base64_char n :
  0 ≤ n < 64 → unbase64 (base64_char n mod 256) = Some n.
Proof.
  intros Hn. unfold base64_char.
  destruct (Z.ltb_spec n 26); [|destruct (Z.ltb_spec n 52);
    [|destruct (Z.ltb_spec n 62); [|destruct (Z.eqb_spec n 62)]]];
    rewrite Z.mod_small by lia; unfold unbase64; zcases; simpl;
    f_equal; lia.
Qed.

Lemma base64_char_not_dot n : 0 ≤ n < 64 → base64_char n ≠ 46.
Proof.
  intros Hn. unfold base64_char.
  destruct (n <? 26), (Z.ltb_spec n 52), (Z.ltb_spec n 62), (n =? 62); lia.
Qed.

Lemma base64_sextets_char n rest :
  0 ≤ n < 64 →
  base64_sextets (base64_char n :: rest) = n :: base64_sextets rest.
Proof. intros Hn. simpl. by rewrite unbase64_base64_char. Qed.

Lemma base64_sextets_padding rest : base64_sextets (61 :: rest) = [].
Proof. reflexivity. Qed.

(** The four sextets of three bytes. *)
Lemma sextet_ranges x y z :
  0 ≤ x < 256 → 0 ≤ y < 256 → 0 ≤ z < 256 →
  0 ≤ x / 4 < 64 ∧ 0 ≤ x mod 4 * 16 + y / 16 < 64 ∧
  0 ≤ y mod 16 * 4 + z / 64 < 64 ∧ 0 ≤ z mod 64 < 64 ∧
  0 ≤ x mod 4 * 16 < 64 ∧ 0 ≤ y mod 16 * 4 < 64.
Proof. intros. repeat split; Z.div_mod_to_equations; lia. Qed.

Lemma base64_decode_encode b : octets b → base64_decode (base64_encode b) = b.
Proof.
  unfold base64_decode.
  induction b as [|x|x y|x y z b IH] using list_ind3; intros Hb.
  - done.
  - apply Forall_cons in Hb as [Hx _].
    destruct (sextet_ranges x 0 0) as (? & _ & _ & _ & ? & _); [lia..|].
    simpl base64_encode.
    rewrite !base64_sextets_char, base64_sextets_padding by done.
    simpl. f_equal. Z.div_mod_to_equations; lia.
  - apply Forall_cons in Hb as [Hx Hb]. apply Forall_cons in Hb as [Hy _].
    destruct (sextet_ranges x y 0) as (? & ? & _ & _ & _ & ?); [lia..|].
    simpl base64_encode.
    rewrite !base64_sextets_char, base64_sextets_padding by done.
    simpl. repeat f_equal; Z.div_mod_to_equations; lia.
  - apply Forall_cons in Hb as [Hx Hb]. apply Forall_cons in Hb as [Hy Hb].
    apply Forall_cons in Hb as [Hz Hb].
    destruct (sextet_ranges x y z) as (? & ? & ? & ? & _ & _); [lia..|].
    simpl base64_encode.
    rewrite !base64_sextets_char by done.
    simpl. rewrite IH by done.
    repeat f_equal; Z.div_mod_to_equations; lia.
Qed.

Lemma base64_encode_no_dot b : octets b → 46 ∉ base64_encode b.
Proof.
  induction b as [|x|x y|x y z b IH] using list_ind3; intros Hb.
  - apply not_elem_of_nil.
  - apply Forall_cons in Hb as [Hx _].
    destruct (sextet_ranges x 0 0) as (? & _ & _ & _ & ? & _); [lia..|].
    simpl. rewrite !not_elem_of_cons.
    repeat split; try apply not_eq_sym, base64_char_not_dot; try done.
    apply not_elem_of_nil.
  - apply Forall_cons in Hb as [Hx Hb]. apply Forall_cons in Hb as [Hy _].
    destruct (sextet_ranges x y 0) as (? & ? & _ & _ & _ & ?); [lia..|].
    simpl. rewrite !not_elem_of_cons.
    repeat split; try apply not_eq_sym, base64_char_not_dot; try done.
    apply not_elem_of_nil.
  - apply Forall_cons in Hb as [Hx Hb]. apply Forall_cons in Hb as [Hy Hb].
    apply Forall_cons in Hb as [Hz Hb].
    destruct (sextet_ranges x y z) as (? & ? & ? & ? & _ & _); [lia..|].
    simpl. rewrite !not_elem_of_cons.
    repeat split; try apply not_eq_sym, base64_char_not_dot; try done.
    by apply IH.
Qed.

End EncodingFacts.

(** ** UTF-8 *)

Module Utf8Facts.
Import Encoding JSFacts EncodingFacts.

Ltac zlia := first [lia | Z.div_mod_to_equations; lia].

(** One step of the decoder, deciding the comparisons it makes. *)
Ltac decode_step :=
  cbn [utf8_decode_loop app andb orb];
  repeat (match goal with
          | |- context [?a =? ?b] =>
              destruct (Z.eqb_spec a b); try (exfalso; zlia)
          | |- context [?a <=? ?b] =>
              destruct (Z.leb_spec a b); try (exfalso; zlia)
          | |- context [?a <? ?b] =>
              destruct (Z.ltb_spec a b); try (exfalso; zlia)
          end; cbn [andb orb]).

(** The marker bits of a byte are above its payload. *)
Lemma payload_mod k a m : 0 < m → k mod m = 0 → 0 ≤ a < m → (k + a) mod m = a.
Proof.
  intros Hm Hk Ha.
  rewrite Z.add_mod, Hk, Z.add_0_l, Z.mod_mod, Z.mod_small by lia. done.
Qed.

Lemma div_range a m n : 0 < m → 0 ≤ a < m * n → 0 ≤ a / m < n.
Proof.
  intros Hm Ha. split; [apply Z.div_pos; lia|].
  apply Z.div_lt_upper_bound; lia.
Qed.

Lemma utf8_bits2 cp :
  0x80 ≤ cp < 0x800 →
  (0xC0 + cp / 64) mod 32 * 64 + (0x80 + cp mod 64) mod 64 = cp.
Proof.
  intros Hcp.
  pose proof (div_range cp 64 32 ltac:(lia) ltac:(lia)).
  pose proof (Z.mod_pos_bound cp 64 ltac:(lia)).
  rewrite !payload_mod by (done || lia).
  pose proof (Z.div_mod cp 64 ltac:(lia)). lia.
Qed.

Lemma utf8_bits3 cp :
  0x800 ≤ cp < 0x10000 →
  ((0xE0 + cp / 4096) mod 16 * 64 + (0x80 + cp / 64 mod 64) mod 64) * 64
    + (0x80 + cp mod 64) mod 64 = cp.
Proof.
  intros Hcp.
  pose proof (div_range cp 4096 16 ltac:(lia) ltac:(lia)).
  pose proof (Z.mod_pos_bound cp 64 ltac:(lia)).
  pose proof (Z.mod_pos_bound (cp / 64) 64 ltac:(lia)).
  rewrite !payload_mod by (done || lia).
  change 4096 with (64 * 64). rewrite <- Z.div_div by lia.
  pose proof (Z.div_mod cp 64 ltac:(lia)).
  pose proof (Z.div_mod (cp / 64) 64 ltac:(lia)). lia.
Qed.

Lemma utf8_bits4 cp :
  0x10000 ≤ cp < 0x110000 →
  (((0xF0 + cp / 262144) mod 8 * 64 + (0x80 + cp / 4096 mod 64) mod 64) * 64
     + (0x80 + cp / 64 mod 64) mod 64) * 64
    + (0x80 + cp mod 64) mod 64 = cp.
Proof.
  intros Hcp.
  pose proof (div_range cp 262144 8 ltac:(lia) ltac:(lia)).
  pose proof (Z.mod_pos_bound cp 64 ltac:(lia)).
  pose proof (Z.mod_pos_bound (cp / 64) 64 ltac:(lia)).
  pose proof (Z.mod_pos_bound (cp / 4096) 64 ltac:(lia)).
  rewrite !payload_mod by (done || lia).
  change 262144 with (64 * 64 * 64). change 4096 with (64 * 64).
  rewrite <- !Z.div_div by lia.
  pose proof (Z.div_mod cp 64 ltac:(lia)).
  pose proof (Z.div_mod (cp / 64) 64 ltac:(lia)).
  pose proof (Z.div_mod (cp / 64 / 64) 64 ltac:(lia)). lia.
Qed.

(** The steps of the decoder. *)

Lemma decode_ascii cp lo hi b rest :
  0 ≤ b ≤ 0x7F →
  utf8_decode_loop cp 0 lo hi (b :: rest) = b :: utf8_decode rest.
Proof. intros Hb. unfold utf8_decode. by decode_step. Qed.

Lemma decode_lead2 cp lo hi b rest :
  0xC2 ≤ b ≤ 0xDF →
  utf8_decode_loop cp 0 lo hi (b :: rest)
    = utf8_decode_loop (b mod 32) 1 0x80 0xBF rest.
Proof. intros Hb. by decode_step. Qed.

Lemma decode_lead3 cp lo hi b rest :
  0xE0 ≤ b ≤ 0xEF →
  utf8_decode_loop cp 0 lo hi (b :: rest)
    = utf8_decode_loop (b mod 16) 2
        (if b =? 0xE0 then 0xA0 else 0x80)
        (if b =? 0xED then 0x9F else 0xBF) rest.
Proof.
  intros Hb. cbn [utf8_decode_loop].
  change (0 =? 0) with true. cbv iota.
  destruct (Z.leb_spec b 0x7F); [lia|].
  destruct (Z.leb_spec b 0xDF); [lia|]. rewrite andb_false_r.
  destruct (Z.leb_spec 0xE0 b); [|lia].
  destruct (Z.leb_spec b 0xEF); [|lia]. done.
Qed.

Lemma decode_lead4 cp lo hi b rest :
  0xF0 ≤ b ≤ 0xF4 →
  utf8_decode_loop cp 0 lo hi (b :: rest)
    = utf8_decode_loop (b mod 8) 3
        (if b =? 0xF0 then 0x90 else 0x80)
        (if b =? 0xF4 then 0x8F else 0xBF) rest.
Proof.
  intros Hb. cbn [utf8_decode_loop].
  change (0 =? 0) with true. cbv iota.
  destruct (Z.leb_spec b 0x7F); [lia|].
  destruct (Z.leb_spec b 0xDF); [lia|]. rewrite andb_false_r.
  destruct (Z.leb_spec b 0xEF); [lia|]. rewrite andb_false_r.
  destruct (Z.leb_spec 0xF0 b); [|lia].
  destruct (Z.leb_spec b 0xF4); [|lia]. done.
Qed.

Lemma decode_continue cp needed lo hi b rest :
  1 < needed → lo ≤ b ≤ hi →
  utf8_decode_loop cp needed lo hi (b :: rest)
    = utf8_decode_loop (cp * 64 + b mod 64) (needed - 1) 0x80 0xBF rest.
Proof.
  intros Hn Hb. cbn [utf8_decode_loop].
  destruct (Z.eqb_spec needed 0); [lia|].
  destruct (Z.eqb_spec needed 1); [lia|].
  destruct (Z.leb_spec lo b); [|lia].
  destruct (Z.leb_spec b hi); [|lia]. done.
Qed.

Lemma decode_last cp lo hi b rest :
  lo ≤ b ≤ hi →
  utf8_decode_loop cp 1 lo hi (b :: rest)
    = utf16_units (cp * 64 + b mod 64) ++ utf8_decode rest.
Proof.
  intros Hb. cbn [utf8_decode_loop].
  change (1 =? 0) with false. change (1 =? 1) with true. cbv iota.
  destruct (Z.leb_spec lo b); [|lia].
  destruct (Z.leb_spec b hi); [|lia]. done.
Qed.

(** An encoded code point is decoded to its UTF-16 form. *)
Lemma utf8_decode_code_point cp rest :
  0 ≤ cp < 0xD800 ∨ 0xE000 ≤ cp < 0x110000 →
  utf8_decode (utf8_code_point cp ++ rest) = utf16_units cp ++ utf8_decode rest.
Proof.
  intros Hcp. unfold utf8_code_point.
  pose proof (Z.mod_pos_bound cp 64 ltac:(lia)).
  pose proof (Z.mod_pos_bound (cp / 64) 64 ltac:(lia)).
  pose proof (Z.mod_pos_bound (cp / 4096) 64 ltac:(lia)).
  destruct (Z.ltb_spec cp 0x80) as [L1|L1];
    [|destruct (Z.ltb_spec cp 0x800) as [L2|L2];
      [|destruct (Z.ltb_spec cp 0x10000) as [L3|L3]]].
  - unfold utf8_decode at 1. cbn [app]. rewrite decode_ascii by lia.
    unfold utf16_units. destruct (Z.ltb_spec cp 0x10000); [done|lia].
  - pose proof (div_range cp 64 32 ltac:(lia) ltac:(lia)).
    assert (2 ≤ cp / 64) by (apply Z.div_le_lower_bound; lia).
    unfold utf8_decode at 1. cbn [app].
    rewrite decode_lead2, decode_last by lia.
    by rewrite utf8_bits2 by lia.
  - pose proof (div_range cp 4096 16 ltac:(lia) ltac:(lia)).
    unfold utf8_decode at 1. cbn [app].
    rewrite decode_lead3 by lia.
    rewrite decode_continue; [|lia|].
    + rewrite decode_last by lia. by rewrite utf8_bits3 by lia.
    + assert (cp / 4096 = cp / 64 / 64) as Hdd
        by (rewrite Z.div_div by lia; done).
      pose proof (Z.div_mod (cp / 64) 64 ltac:(lia)).
      pose proof (Z.div_mod cp 64 ltac:(lia)).
      destruct (Z.eqb_spec (0xE0 + cp / 4096) 0xE0),
               (Z.eqb_spec (0xE0 + cp / 4096) 0xED); lia.
  - pose proof (div_range cp 262144 5 ltac:(lia) ltac:(lia)).
    unfold utf8_decode at 1. cbn [app].
    rewrite decode_lead4 by lia.
    rewrite decode_continue; [|lia|].
    + rewrite decode_continue by lia. rewrite decode_last by lia.
      by rewrite utf8_bits4 by lia.
    + assert (cp / 262144 = cp / 4096 / 64) as Hdd
        by (rewrite Z.div_div by lia; done).
      assert (cp / 4096 = cp / 64 / 64) as Hdd'
        by (rewrite Z.div_div by lia; done).
      pose proof (Z.div_mod (cp / 4096) 64 ltac:(lia)).
      pose proof (Z.div_mod (cp / 64) 64 ltac:(lia)).
      pose proof (Z.div_mod cp 64 ltac:(lia)).
      destruct (Z.eqb_spec (0xF0 + cp / 262144) 0xF0),
               (Z.eqb_spec (0xF0 + cp / 262144) 0xF4); lia.
Qed.

(** Unfolding the encoder and the repair function by one code unit. *)
Lemma utf8_encode_cons c rest :
  utf8_encode (c :: rest) =
  if is_high_surrogate c then
    match rest with
    | d :: rest' =>
        if is_low_surrogate d then
          utf8_code_point (0x10000 + (c - 0xD800) * 1024 + (d - 0xDC00))
            ++ utf8_encode rest'
        else utf8_code_point 0xFFFD ++ utf8_encode rest
    | [] => utf8_code_point 0xFFFD ++ utf8_encode rest
    end
  else if is_low_surrogate c then utf8_code_point 0xFFFD ++ utf8_encode rest
  else utf8_code_point c ++ utf8_encode rest.
Proof. by destruct rest. Qed.

Lemma to_well_formed_cons c rest :
  to_well_formed (c :: rest) =
  if is_high_surrogate c then
    match rest with
    | d :: rest' =>
        if is_low_surrogate d then c :: d :: to_well_formed rest'
        else 0xFFFD :: to_well_formed rest
    | [] => 0xFFFD :: to_well_formed rest
    end
  else if is_low_surrogate c then 0xFFFD :: to_well_formed rest
  else c :: to_well_formed rest.
Proof. by destruct rest. Qed.

Lemma is_high_surrogate_spec c :
  is_high_surrogate c = true ↔ 0xD800 ≤ c ≤ 0xDBFF.
Proof. unfold is_high_surrogate. rewrite andb_true_iff, !Z.leb_le. done. Qed.

Lemma is_low_surrogate_spec c :
  is_low_surrogate c = true ↔ 0xDC00 ≤ c ≤ 0xDFFF.
Proof. unfold is_low_surrogate. rewrite andb_true_iff, !Z.leb_le. done. Qed.

(** Decide whether the code units in sight are surrogates. *)
Ltac surrogate_cases :=
  repeat match goal with
    | |- context [is_high_surrogate ?c] =>
        let H := fresh "Hhigh" in
        destruct (is_high_surrogate c) eqn:H;
        [apply is_high_surrogate_spec in H
        |apply not_true_iff_false in H; rewrite is_high_surrogate_spec in H]
    | |- context [is_low_surrogate ?c] =>
        let H := fresh "Hlow" in
        destruct (is_low_surrogate c) eqn:H;
        [apply is_low_surrogate_spec in H
        |apply not_true_iff_false in H; rewrite is_low_surrogate_spec in H]
    end.

Lemma utf16_units_pair c d :
  0xD800 ≤ c ≤ 0xDBFF → 0xDC00 ≤ d ≤ 0xDFFF →
  utf16_units (0x10000 + (c - 0xD800) * 1024 + (d - 0xDC00)) = [c; d].
Proof.
  intros Hc Hd. unfold utf16_units.
  destruct (Z.ltb_spec (0x10000 + (c - 0xD800) * 1024 + (d - 0xDC00))
              0x10000); [lia|].
  replace (0x10000 + (c - 0xD800) * 1024 + (d - 0xDC00) - 0x10000)
    with ((d - 0xDC00) + (c - 0xD800) * 1024) by lia.
  rewrite Z.div_add, Z.mod_add by lia.
  rewrite Z.div_small, Z.mod_small by lia. f_equal; [lia|]. f_equal. lia.
Qed.

Lemma utf16_units_bmp c : c < 0x10000 → utf16_units c = [c].
Proof.
  intros Hc. unfold utf16_units.
  by destruct (Z.ltb_spec c 0x10000); [|lia].
Qed.

(** Through UTF-8 and back: the string with its unpaired surrogates
    replaced by U+FFFD. *)
Lemma utf8_decode_encode s :
  code_units s → utf8_decode (utf8_encode s) = to_well_formed s.
Proof.
  induction s as [|x|x y l IH1 IH2] using list_ind2; intros Hs.
  - done.
  - apply Forall_cons in Hs as [Hx _].
    rewrite utf8_encode_cons, to_well_formed_cons. surrogate_cases;
      rewrite utf8_decode_code_point by lia; try done.
    by rewrite utf16_units_bmp by lia.
  - pose proof Hs as Hyl. apply Forall_cons in Hyl as [Hx Hyl].
    pose proof Hyl as Hl. apply Forall_cons in Hl as [Hy Hl].
    rewrite (utf8_encode_cons x), (to_well_formed_cons x).
    surrogate_cases; rewrite utf8_decode_code_point by lia.
    + rewrite utf16_units_pair by lia. by rewrite IH1.
    + by rewrite IH2.
    + by rewrite IH2.
    + rewrite utf16_units_bmp by lia. by rewrite IH2.
Qed.

(** Repairing a string does not change its UTF-8 bytes. *)
Lemma utf8_encode_to_well_formed s :
  utf8_encode (to_well_formed s) = utf8_encode s.
Proof.
  induction s as [|x|x y l IH1 IH2] using list_ind2.
  - done.
  - rewrite to_well_formed_cons, (utf8_encode_cons x []).
    destruct (is_high_surrogate x) eqn:Hx; [done|].
    destruct (is_low_surrogate x) eqn:Hx'; [done|].
    by rewrite utf8_encode_cons, Hx, Hx'.
  - rewrite (to_well_formed_cons x), (utf8_encode_cons x (y :: l)).
    surrogate_cases.
    + rewrite (utf8_encode_cons x).
      destruct (is_high_surrogate x) eqn:Hx;
        [|apply not_true_iff_false in Hx;
          rewrite is_high_surrogate_spec in Hx; lia].
      destruct (is_low_surrogate y) eqn:Hy;
        [|apply not_true_iff_false in Hy;
          rewrite is_low_surrogate_spec in Hy; lia].
      by rewrite IH1.
    + rewrite (utf8_encode_cons 0xFFFD). simpl is_high_surrogate.
      simpl is_low_surrogate. cbv iota. by rewrite IH2.
    + rewrite (utf8_encode_cons 0xFFFD). simpl is_high_surrogate.
      simpl is_low_surrogate. cbv iota. by rewrite IH2.
    + rewrite (utf8_encode_cons x).
      destruct (is_high_surrogate x) eqn:Hx;
        [apply is_high_surrogate_spec in Hx; lia|].
      destruct (is_low_surrogate x) eqn:Hx';
        [apply is_low_surrogate_spec in Hx'; lia|].
      by rewrite IH2.
Qed.

Lemma utf8_code_point_octets cp :
  0 ≤ cp < 0x110000 → octets (utf8_code_point cp).
Proof.
  intros Hcp. unfold utf8_code_point, octets.
  pose proof (Z.mod_pos_bound cp 64 ltac:(lia)).
  pose proof (Z.mod_pos_bound (cp / 64) 64 ltac:(lia)).
  pose proof (Z.mod_pos_bound (cp / 4096) 64 ltac:(lia)).
  destruct (Z.ltb_spec cp 0x80); [|destruct (Z.ltb_spec cp 0x800);
    [|destruct (Z.ltb_spec cp 0x10000)]].
  - repeat constructor; lia.
  - pose proof (div_range cp 64 32 ltac:(lia) ltac:(lia)).
    repeat constructor; lia.
  - pose proof (div_range cp 4096 16 ltac:(lia) ltac:(lia)).
    repeat constructor; lia.
  - pose proof (div_range cp 262144 5 ltac:(lia) ltac:(lia)).
    repeat constructor; lia.
Qed.

Lemma utf8_encode_octets s : code_units s → octets (utf8_encode s).
Proof.
  unfold octets.
  induction s as [|x|x y l IH1 IH2] using list_ind2; intros Hs.
  - constructor.
  - apply Forall_cons in Hs as [Hx _]. rewrite utf8_encode_cons.
    surrogate_cases;
      (apply Forall_app; split;
       [apply utf8_code_point_octets; lia | apply Forall_nil_2]).
  - pose proof Hs as Hyl. apply Forall_cons in Hyl as [Hx Hyl].
    pose proof Hyl as Hl. apply Forall_cons in Hl as [Hy Hl].
    rewrite (utf8_encode_cons x).
    surrogate_cases;
      (apply Forall_app; split;
       [apply utf8_code_point_octets; lia | auto]).
Qed.

(** A code unit that is no surrogate separates the repair of what is
    before it from the repair of what is after it. *)
Lemma to_well_formed_app s c t :
  is_high_surrogate c = false → is_low_surrogate c = false →
  to_well_formed (s ++ c :: t) = to_well_formed s ++ c :: to_well_formed t.
Proof.
  intros Hc1 Hc2.
  induction s as [|x|x y l IH1 IH2] using list_ind2.
  - simpl app. by rewrite to_well_formed_cons, Hc1, Hc2.
  - change ([x] ++ c :: t) with (x :: c :: t).
    rewrite (to_well_formed_cons x (c :: t)), (to_well_formed_cons x []).
    rewrite Hc2. rewrite (to_well_formed_cons c t), Hc1, Hc2.
    destruct (is_high_surrogate x), (is_low_surrogate x); done.
  - change ((x :: y :: l) ++ c :: t) with (x :: y :: (l ++ c :: t)).
    rewrite (to_well_formed_cons x (y :: (l ++ c :: t))).
    rewrite (to_well_formed_cons x (y :: l)).
    change (y :: (l ++ c :: t)) with ((y :: l) ++ c :: t).
    rewrite IH2.
    destruct (is_high_surrogate x), (is_low_surrogate y),
      (is_low_surrogate x); try done.
    all: change ((y :: l) ++ c :: t) with (y :: (l ++ c :: t)); cbv iota.
    all: by rewrite IH1.
Qed.

Lemma to_well_formed_plain t :
  Forall (λ c, c < 0xD800) t → to_well_formed t = t.
Proof.
  induction 1 as [|c t Hc _ IH]; [done|].
  rewrite to_well_formed_cons.
  destruct (is_high_surrogate c) eqn:H1;
    [apply is_high_surrogate_spec in H1; lia|].
  destruct (is_low_surrogate c) eqn:H2;
    [apply is_low_surrogate_spec in H2; lia|].
  by rewrite IH.
Qed.

Lemma to_well_formed_code_units s :
  code_units s → code_units (to_well_formed s).
Proof.
  unfold code_units.
  induction s as [|x|x y l IH1 IH2] using list_ind2; intros Hs.
  - constructor.
  - apply Forall_cons in Hs as [Hx _]. rewrite to_well_formed_cons.
    surrogate_cases; repeat constructor; lia.
  - pose proof Hs as Hyl. apply Forall_cons in Hyl as [Hx Hyl].
    pose proof Hyl as Hl. apply Forall_cons in Hl as [Hy Hl].
    rewrite (to_well_formed_cons x).
    surrogate_cases; repeat (constructor; [lia|]); auto.
Qed.

End Utf8Facts.

(** ** Digests *)

Module SHA256Facts.
Import SHA256.

Lemma word_bytes_octets w : octets (word_bytes w).
Proof.
  unfold octets, word_bytes.
  repeat constructor; apply Z.mod_pos_bound; lia.
Qed.

(** A digest is 32 bytes. *)
Lemma sha256_digest msg : length (sha256 msg) = 32%nat ∧ octets (sha256 msg).
Proof.
  unfold sha256.
  destruct (fold_left compress _ H0) as [[[[[[[a b] c] d] e] f] g] h].
  split; [done|].
  unfold octets. rewrite !Forall_app.
  repeat split; apply word_bytes_octets.
Qed.

Lemma hmac_digest key msg :
  length (hmac key msg) = 32%nat ∧ octets (hmac key msg).
Proof. unfold hmac. apply sha256_digest. Qed.

End SHA256Facts.

(** ** Session tokens *)

Module SessionFacts.
Import JS Encoding Session JSFacts EncodingFacts Utf8Facts SHA256Facts.

(** *** The parts of a generated token *)

Lemma Number_toString_plain n :
  Forall (λ c, c < 0xD800) (Number_toString n) ∧ 58 ∉ Number_toString n.
Proof.
  pose proof (Number_toString_chars n) as Hn. split.
  - eapply Forall_impl; [exact Hn|]. simpl. lia.
  - intros Hin. rewrite Forall_forall in Hn. apply Hn in Hin. lia.
Qed.

Lemma token_data_code_units sessionId now :
  code_units sessionId → code_units (token_data sessionId now).
Proof.
  intros Hs. unfold token_data, code_units. rewrite !Forall_app.
  split; [done|]. split; [repeat constructor; lia|].
  eapply Forall_impl; [apply Number_toString_chars|]. simpl. lia.
Qed.

(** What the decoder of [validateSessionToken] makes of the data part. *)
Lemma try_decode_generated sessionId now :
  code_units sessionId →
  try_decode (base64_encode (utf8_encode (token_data sessionId now)))
    = inr (to_well_formed sessionId ++ 58 :: Number_toString now).
Proof.
  intros Hs. unfold try_decode. f_equal.
  rewrite base64_decode_encode
    by (by apply utf8_encode_octets, token_data_code_units).
  rewrite utf8_decode_encode by (by apply token_data_code_units).
  unfold token_data. change (js ":" ++ ?t) with (58 :: t).
  rewrite to_well_formed_app by done.
  by rewrite (to_well_formed_plain (Number_toString now))
    by apply Number_toString_plain.
Qed.

Lemma hmac_hex_to_well_formed secret sessionId now :
  hmac_hex secret (to_well_formed sessionId ++ 58 :: Number_toString now)
    = hmac_hex secret (token_data sessionId now).
Proof.
  unfold hmac_hex. do 2 f_equal.
  rewrite <- (utf8_encode_to_well_formed (token_data sessionId now)).
  unfold token_data. change (js ":" ++ ?t) with (58 :: t).
  rewrite to_well_formed_app by done.
  by rewrite (to_well_formed_plain (Number_toString now))
    by apply Number_toString_plain.
Qed.

Lemma hex_decode_hmac_hex secret data :
  hex_decode (hmac_hex secret data)
    = SHA256.hmac (utf8_encode secret) (utf8_encode data).
Proof. unfold hmac_hex. apply hex_decode_encode, hmac_digest. Qed.

Lemma split_generated sessionId secret now :
  code_units sessionId →
  split 46 (base64_encode (utf8_encode (token_data sessionId now))
            ++ js "." ++ hmac_hex secret (token_data sessionId now))
    = [base64_encode (utf8_encode (token_data sessionId now));
       hmac_hex secret (token_data sessionId now)].
Proof.
  intros Hs. change (js "." ++ ?t) with (46 :: t).
  rewrite split_app
    by (by apply base64_encode_no_dot, utf8_encode_octets,
             token_data_code_units).
  by rewrite split_no_sep by apply hex_encode_no_dot, hmac_digest.
Qed.

Lemma generateSessionToken_unfold sessionId secret now :
  sessionId ≠ [] → secret ≠ [] →
  generateSessionToken sessionId secret now
    = inr (base64_encode (utf8_encode (token_data sessionId now))
           ++ js "." ++ hmac_hex secret (token_data sessionId now)).
Proof.
  intros H1 H2. unfold generateSessionToken.
  by rewrite !bool_decide_eq_false_2 by done.
Qed.

(** [validateSessionToken] on a token of the right format, in terms of
    the decoded data. *)
Lemma validateSessionToken_unfold token secret encodedData signature :
  token ≠ [] → secret ≠ [] →
  split 46 token = [encodedData; signature] →
  validateSessionToken token secret =
  let data := utf8_decode (base64_decode encodedData) in
  if bool_decide (hex_decode signature
                  = SHA256.hmac (utf8_encode secret) (utf8_encode data))
  then
    if lastIndexOf 58 data =? -1 then Rejected "Invalid token data format"
    else
      match parseInt10 (slice_from data (lastIndexOf 58 data + 1)) with
      | None => Rejected "Invalid timestamp"
      | Some timestamp =>
          Accepted (slice data 0 (lastIndexOf 58 data)) timestamp
      end
  else Rejected "Invalid signature".
Proof.
  intros Ht Hs Hsplit. unfold validateSessionToken.
  rewrite !bool_decide_eq_false_2 by done. rewrite Hsplit.
  unfold try_decode. cbv zeta. rewrite hex_decode_hmac_hex.
  unfold timingSafeEqual.
  destruct (decide (hex_decode signature
                    = SHA256.hmac (utf8_encode secret)
                        (utf8_encode (utf8_decode
                                        (base64_decode encodedData)))))
    as [Heq|Hne].
  - rewrite Heq, (bool_decide_eq_true_2 (_ = _)) by done.
    by rewrite bool_decide_eq_false_2 by (intros Hne; by apply Hne).
  - rewrite !(bool_decide_eq_false_2 (_ = _)) by done.
    by rewrite orb_true_r.
Qed.


(** What [validateSessionToken] answers to a freshly generated token, by
    the secret it is given. *)
Lemma validate_generated sessionId secretA secretB now :
  sessionId ≠ [] → secretA ≠ [] → secretB ≠ [] → code_units sessionId →
  ∃ token,
    generateSessionToken sessionId secretA now = inr token ∧
    validateSessionToken token secretB =
    if bool_decide
         (SHA256.hmac (utf8_encode secretA)
            (utf8_encode (token_data sessionId now))
          = SHA256.hmac (utf8_encode secretB)
              (utf8_encode (token_data sessionId now)))
    then Accepted (to_well_formed sessionId) now
    else Rejected "Invalid signature".
Proof.
  intros Hid HA HB Hcu. eexists. split.
  { by apply generateSessionToken_unfold. }
  erewrite validateSessionToken_unfold;
    [| |done|by apply split_generated].
  2: { intros [_ Hdot]%app_eq_nil. discriminate Hdot. }
  pose proof (try_decode_generated sessionId now Hcu) as Hdec.
  unfold try_decode in Hdec. injection Hdec as ->. cbv zeta.
  rewrite hex_decode_hmac_hex.
  pose proof (hmac_hex_to_well_formed secretB sessionId now) as Hsig.
  unfold hmac_hex in Hsig. apply (f_equal hex_decode) in Hsig.
  rewrite !hex_decode_encode in Hsig by apply hmac_digest.
  rewrite Hsig. case_bool_decide; [|done].
  rewrite lastIndexOf_app by apply Number_toString_plain.
  destruct (Z.eqb_spec (Z.of_nat (length (to_well_formed sessionId))) (-1));
    [lia|].
  rewrite slice_from_suffix, parseInt10_Number_toString.
  by rewrite slice_prefix.
Qed.

(** *** Round trip *)

(** A session id with an unpaired surrogate does not come back: the
    token validates, with U+FFFD in its place. *)
Lemma unpaired_surrogate_not_round_tripped :
  match generateSessionToken [0xD800] (js "s3cr3t") 1705000000000 with
  | inr token =>
      validateSessionToken token (js "s3cr3t")
        = Accepted [0xFFFD] 1705000000000
      ∧ sessionId (validateSessionToken token (js "s3cr3t"))
        ≠ Some [0xD800]
  | inl _ => False
  end.
Proof. vm_compute. split; [reflexivity | discriminate]. Qed.

(** C1 (amended). For a non-empty session id and secret, validating a
    freshly generated token with the same secret is accepted with the
    embedded timestamp and the session id in its well-formed form (every
    unpaired surrogate replaced by U+FFFD); for a session id without
    unpaired surrogates that is the original session id, whether or not
    it contains [':']. *)
Theorem validate_generate (sessionId secret : list Z) (now : Z) :
  sessionId ≠ [] → secret ≠ [] → code_units sessionId →
  ∃ token,
    generateSessionToken sessionId secret now = inr token ∧
    validateSessionToken token secret
      = Accepted (to_well_formed sessionId) now ∧
    (well_formed sessionId →
       valid (validateSessionToken token secret) = true ∧
       Session.sessionId (validateSessionToken token secret)
         = Some sessionId ∧
       timestamp (validateSessionToken token secret) = Some now ∧
       error (validateSessionToken token secret) = None).
Proof.
  intros Hid Hs Hcu.
  destruct (validate_generated sessionId secret secret now Hid Hs Hs Hcu)
    as (token & Hgen & Hval).
  rewrite bool_decide_eq_true_2 in Hval by done.
  exists token. split; [done|]. split; [done|].
  intros Hwf. rewrite Hval. simpl. by rewrite Hwf.
Qed.

Lemma validate_generate_witness :
  ∃ token,
    generateSessionToken (js "a:b") (js "s3cr3t") 1705000000000
      = inr token ∧
    validateSessionToken token (js "s3cr3t")
      = Accepted (js "a:b") 1705000000000.
Proof.
  destruct (validate_generate (js "a:b") (js "s3cr3t") 1705000000000)
    as (token & Hgen & Hval & _).
  - discriminate.
  - discriminate.
  - repeat constructor; lia.
  - exists token. split; [exact Hgen | exact Hval].
Defined.

(** *** Wrong secret *)



(** Two different secrets can be the same HMAC key: a key shorter than
    the block is padded with zero bytes, and unpaired surrogates are all
    written as U+FFFD. A token then validates under the other secret. *)
Lemma secrets_with_one_key :
  match generateSessionToken (js "abc-123") (js "k") 1705000000000 with
  | inr token =>
      validateSessionToken token (js "k" ++ [0])
        = Accepted (js "abc-123") 1705000000000
  | inl _ => False
  end ∧
  match generateSessionToken (js "abc-123") [0xD800] 1705000000000 with
  | inr token =>
      validateSessionToken token [0xDBFF]
        = Accepted (js "abc-123") 1705000000000
  | inl _ => False
  end.
Proof. vm_compute. split; reflexivity. Qed.

(** *** Decoding failures *)

(** C5. The "Invalid base64 encoding" result is never returned: the
    decoder skips what is not base64 instead of failing. A data part
    without any base64 character is an empty data string, which fails the
    signature check; a generated token with a ['!'] put in front of it is
    still accepted. *)
Theorem invalid_base64_not_reported :
  validateSessionToken (js "!!!!.00") (js "s3cr3t")
    = Rejected "Invalid signature" ∧
  match generateSessionToken (js "abc-123") (js "s3cr3t") 1705000000000 with
  | inr token =>
      validateSessionToken (js "!" ++ token) (js "s3cr3t")
        = Accepted (js "abc-123") 1705000000000
  | inl _ => False
  end ∧
  ∀ token secret,
    validateSessionToken token secret ≠ Rejected "Invalid base64 encoding".
Proof.
  split; [by vm_compute|]. split; [by vm_compute|].
  intros token secret. unfold validateSessionToken.
  repeat case_bool_decide; try discriminate.
  destruct (split 46 token) as [|encodedData [|signature [|? ?]]];
    try discriminate.
  unfold try_decode. cbv zeta.
  destruct (_ || _); [discriminate|].
  destruct (_ =? _); [discriminate|].
  destruct (parseInt10 _); discriminate.
Qed.

(** *** Expiry *)

(** C9. [isSessionTokenExpired] reports a rejected token as expired,
    with the validation error; for an accepted token it reports
    [ageMs = now - timestamp] and [expired = (ageMs > maxAgeMs)], so a
    token whose timestamp is ahead of the clock is not expired for any
    non-negative [maxAgeMs]. *)
Theorem isSessionTokenExpired_spec (token secret : list Z)
    (maxAgeMs now : Z) :
  (valid (validateSessionToken token secret) = false →
     expired (isSessionTokenExpired token secret maxAgeMs now) = true ∧
     expiry_error (isSessionTokenExpired token secret maxAgeMs now)
       = error (validateSessionToken token secret) ∧
     is_Some (error (validateSessionToken token secret))) ∧
  (∀ t, timestamp (validateSessionToken token secret) = Some t →
     ageMs (isSessionTokenExpired token secret maxAgeMs now)
       = Some (now - t) ∧
     (expired (isSessionTokenExpired token secret maxAgeMs now) = true
      ↔ now - t > maxAgeMs) ∧
     expiry_error (isSessionTokenExpired token secret maxAgeMs now)
       = None ∧
     (now < t → 0 ≤ maxAgeMs →
      expired (isSessionTokenExpired token secret maxAgeMs now) = false)).
Proof.
  unfold isSessionTokenExpired.
  destruct (validateSessionToken token secret) as [e|sid t0]; simpl.
  - split; [|discriminate]. intros _. eauto.
  - split; [discriminate|]. intros t [= <-].
    split; [done|]. split; [apply bool_decide_eq_true|].
    split; [done|]. intros Hskew Hmax. apply bool_decide_eq_false. lia.
Qed.

(** *** Data without a separator *)

(** An accepted token has the right format, a matching signature, and
    data that splits at its last [':'] into the session id and a
    numeral. *)
Lemma validate_accepted token secret sid t :
  validateSessionToken token secret = Accepted sid t →
  ∃ encodedData signature numeral,
    split 46 token = [encodedData; signature] ∧
    utf8_decode (base64_decode encodedData) = sid ++ 58 :: numeral ∧
    (58 ∉ numeral) ∧ parseInt10 numeral = Some t.
Proof.
  intros Hval.
  destruct (decide (token = [])) as [->|Ht]; [discriminate|].
  destruct (decide (secret = [])) as [->|Hs].
  { unfold validateSessionToken in Hval.
    rewrite bool_decide_eq_false_2 in Hval by done. discriminate. }
  destruct (split 46 token) as [|encodedData [|signature [|? ?]]] eqn:Hsplit.
  1,2,4: unfold validateSessionToken in Hval;
    rewrite !bool_decide_eq_false_2, Hsplit in Hval by done; discriminate.
  rewrite (validateSessionToken_unfold _ _ _ _ Ht Hs Hsplit) in Hval.
  cbv zeta in Hval. case_bool_decide; [|discriminate].
  destruct (Z.eqb_spec (lastIndexOf 58 (utf8_decode
              (base64_decode encodedData))) (-1)) as [|Hidx];
    [discriminate|].
  pose proof (lastIndexOf_bound 58 (utf8_decode
                (base64_decode encodedData))) as [Hlo _].
  destruct (lastIndexOf_split 58 (utf8_decode (base64_decode encodedData)))
    as (a & b & Hdata & Hb & Hlen); [lia|].
  rewrite Hlen, Hdata, slice_from_suffix, slice_prefix in Hval.
  destruct (parseInt10 b) as [t'|] eqn:Hparse; [|discriminate].
  injection Hval as -> ->. by exists encodedData, signature, b.
Qed.

(** C10. For a token of the right format whose signature matches, the
    result is "Invalid token data format" exactly when the decoded data
    has no [':']; this is another message than "Invalid timestamp", and an
    accepted token's session id is what precedes the last [':'] of the
    data. *)
Theorem validate_data_format (token secret encodedData signature : list Z) :
  token ≠ [] → secret ≠ [] →
  split 46 token = [encodedData; signature] →
  hex_decode signature
    = hex_decode (hmac_hex secret
                    (utf8_decode (base64_decode encodedData))) →
  (58 ∉ utf8_decode (base64_decode encodedData) ↔
     validateSessionToken token secret
       = Rejected "Invalid token data format") ∧
  Rejected "Invalid token data format" ≠ Rejected "Invalid timestamp" ∧
  (∀ sid t, validateSessionToken token secret = Accepted sid t →
     ∃ numeral,
       utf8_decode (base64_decode encodedData) = sid ++ 58 :: numeral ∧
       (58 ∉ numeral) ∧ parseInt10 numeral = Some t).
Proof.
  intros Ht Hs Hsplit Hsig. rewrite hex_decode_hmac_hex in Hsig.
  split; [|split; [discriminate|]].
  - rewrite (validateSessionToken_unfold _ _ _ _ Ht Hs Hsplit). cbv zeta.
    rewrite bool_decide_eq_true_2 by done. split.
    + intros Hno. by rewrite lastIndexOf_absent.
    + intros Hval Hin. apply (lastIndexOf_present 58) in Hin.
      destruct (Z.eqb_spec (lastIndexOf 58 (utf8_decode
                  (base64_decode encodedData))) (-1)); [lia|].
      destruct (parseInt10 _); discriminate.
  - intros sid t Hval.
    destruct (validate_accepted _ _ _ _ Hval)
      as (enc & sig & numeral & Hsplit' & Hdata & Hnum & Hparse).
    rewrite Hsplit in Hsplit'. injection Hsplit' as <- <-.
    by exists numeral.
Qed.

Lemma validate_data_format_witness :
  let token :=
    base64_encode (js "abc") ++ js "." ++ hmac_hex (js "s3cr3t") (js "abc") in
  validateSessionToken token (js "s3cr3t")
    = Rejected "Invalid token data format".
Proof.
  destruct (validate_data_format
              (base64_encode (js "abc") ++ js "."
               ++ hmac_hex (js "s3cr3t") (js "abc"))
              (js "s3cr3t") (base64_encode (js "abc"))
              (hmac_hex (js "s3cr3t") (js "abc")))
    as (Hno & _ & _).
  - discriminate.
  - discriminate.
  - vm_compute. reflexivity.
  - vm_compute. reflexivity.
  - apply Hno. vm_compute.
    intros Hin. repeat (apply elem_of_cons in Hin as [Hin|Hin];
                        [discriminate Hin|]).
    by apply elem_of_nil in Hin.
Defined.

End SessionFacts.

(** ** rate-limit.js: a limiter in use *)

Module RateLimitCallsFacts.
Import RateLimit RateLimitCalls RateLimitFacts.

Implicit Types records : gmap (list Z) record.

(** ** One call and the other keys *)

(** [check] leaves at every other key what its clean-up statements have
    left there. *)
Lemma check_state_other (o : options) (key : list Z) (increment : bool)
    (now now_sweep : Z) records (k : list Z) :
  k ≠ key →
  (check o key increment now now_sweep records).2 !! k
    = swept o key now now_sweep records !! k.
Proof.
  intros Hne. rewrite check_unfold.
  destruct (swept o key now now_sweep records !! key) as [r|].
  - case_bool_decide; simpl; [done|].
    destruct increment; simpl; [by rewrite lookup_insert_ne|done].
  - destruct increment; simpl; [by rewrite lookup_insert_ne|done].
Qed.

Lemma recordFailure_other (o : options) (key : list Z) (now : Z) records
    (k : list Z) :
  k ≠ key → recordFailure o key now records !! k = records !! k.
Proof.
  intros Hne. unfold recordFailure.
  destruct (records !! key) as [r|]; [case_bool_decide|];
    by rewrite lookup_insert_ne.
Qed.

(** A call about another key creates no record. *)
Lemma apply_call_absent (o : options) records (c : call) (B : list Z) :
  call_key c ≠ Some B → records !! B = None →
  apply_call o records c !! B = None.
Proof.
  intros Hkey HB. destruct c as [key inc now now'|key now|now|key]; simpl in *.
  - rewrite check_state_other by congruence.
    destruct (swept o key now now' records !! B) as [r|] eqn:Hs; [|done].
    apply swept_lookup_Some in Hs. congruence.
  - rewrite recordFailure_other by congruence. done.
  - destruct (cleanup now records !! B) as [r|] eqn:Hs; [|done].
    apply cleanup_lookup_Some in Hs as [Hs _]. congruence.
  - unfold reset. rewrite lookup_delete_ne by congruence. done.
Qed.

(** A call about another key leaves a record that has not expired at the
    clock readings of the call. *)
Lemma apply_call_live (o : options) records (c : call) (B : list Z)
    (r : record) :
  call_key c ≠ Some B → records !! B = Some r →
  Forall (λ t, t ≤ resetAt r) (call_clock c) →
  apply_call o records c !! B = Some r.
Proof.
  intros Hkey HB Hclock.
  destruct c as [key inc now now'|key now|now|key]; simpl in *.
  - apply Forall_cons in Hclock as [H1 Hclock].
    apply Forall_cons in Hclock as [H2 _].
    rewrite check_state_other by congruence. by apply swept_live.
  - rewrite recordFailure_other by congruence. done.
  - apply Forall_cons in Hclock as [H1 _]. by apply cleanup_lookup_Some.
  - unfold reset. rewrite lookup_delete_ne by congruence. done.
Qed.

(** X1. Key independence: calls about other keys, whatever they are and
    however many, never create a record for a key, so a key without a
    record is still allowed its first attempt after them; and they leave
    the record of a key as it is when it has not expired at their clock
    readings. *)
Theorem other_keys_independent (o : options) (B : list Z)
    (calls : list call) records :
  Forall (λ c, call_key c ≠ Some B) calls →
  (records !! B = None →
     run o calls records !! B = None ∧
     ∀ increment t t',
       (check o B increment t t' (run o calls records)).1
         = CheckResult true (maxAttempts o - 1) None) ∧
  (∀ r, records !! B = Some r →
     Forall (λ c, Forall (λ t, t ≤ resetAt r) (call_clock c)) calls →
     run o calls records !! B = Some r).
Proof.
  intros Hcalls. unfold run. split.
  - intros HB.
    assert (fold_left (apply_call o) calls records !! B = None) as Hnone.
    { revert records HB. induction Hcalls as [|c calls Hc _ IH];
        intros records HB; simpl; [done|].
      apply IH. by apply apply_call_absent. }
    split; [done|]. intros increment t t'.
    rewrite check_unfold, swept_key_expired; [done|].
    intros r Hr. congruence.
  - intros r HB Hclock. revert records HB.
    induction Hcalls as [|c calls Hc _ IH]; intros records HB; simpl; [done|].
    apply Forall_cons in Hclock as [Hc' Hclock].
    apply IH; [done|]. by apply apply_call_live.
Qed.

Lemma other_keys_independent_witness :
  let o := Options 60000 1 1000 in
  let calls := [Check (js "ip-a") true 10 10; Check (js "ip-a") true 20 20] in
  run o calls ∅ !! js "ip-b" = None ∧
  ∀ increment t t',
    (check o (js "ip-b") increment t t' (run o calls ∅)).1
      = CheckResult true 0 None.
Proof.
  destruct (other_keys_independent (Options 60000 1 1000) (js "ip-b")
              [Check (js "ip-a") true 10 10; Check (js "ip-a") true 20 20] ∅)
    as [Habsent _].
  - repeat constructor; simpl; discriminate.
  - apply Habsent. reflexivity.
Defined.

(** ** reset *)

(** X2. [reset(key)] removes the record of the key and nothing else; the
    next [check(key)] is allowed with [remaining = maxAttempts - 1] and,
    when it counts, opens a new window with count 1, whatever the count
    was before. Resetting a key without a record changes nothing. *)
Theorem reset_then_check (o : options) (key : list Z) records
    (increment : bool) (now now_sweep : Z) :
  reset key records !! key = None ∧
  (∀ k, k ≠ key → reset key records !! k = records !! k) ∧
  (check o key increment now now_sweep (reset key records)).1
    = CheckResult true (maxAttempts o - 1) None ∧
  (check o key true now now_sweep (reset key records)).2 !! key
    = Some (Rec 1 (now + windowMs o)) ∧
  (records !! key = None → reset key records = records).
Proof.
  unfold reset. split; [apply lookup_delete_eq|].
  split; [intros k Hne; by apply lookup_delete_ne|].
  assert (∀ r, delete key records !! key = Some r → now > resetAt r) as Hdead.
  { intros r Hr. rewrite lookup_delete_eq in Hr. discriminate Hr. }
  split; [by rewrite check_unfold, swept_key_expired|].
  split; [by apply check_opens_window|].
  apply delete_id.
Qed.

(** ** cleanup *)

(** X3. [cleanup()] keeps exactly the records whose window has not ended
    at its clock reading, unchanged; a second sweep at a later (or the
    same) reading gives what one sweep at the later reading gives, the
    number of records does not grow, and a map without expired records is
    left as it is. *)
Theorem cleanup_spec (now now' : Z) records :
  (∀ k r, cleanup now records !! k = Some r ↔
          records !! k = Some r ∧ now ≤ resetAt r) ∧
  cleanup now' (cleanup now records) = cleanup (Z.max now now') records ∧
  (size (cleanup now records) ≤ size records)%nat ∧
  ((∀ k r, records !! k = Some r → now ≤ resetAt r) →
     cleanup now records = records).
Proof.
  split; [intros k r; apply cleanup_lookup_Some|].
  split; [|split].
  - apply map_eq. intros k. apply option_eq. intros r.
    rewrite !cleanup_lookup_Some. split.
    + intros [[? ?] ?]. split; [done|lia].
    + intros [? ?]. repeat split; [done|lia..].
  - apply map_subseteq_size, cleanup_subseteq.
  - intros Hlive. apply map_eq. intros k. apply option_eq. intros r.
    rewrite cleanup_lookup_Some. split; [tauto|]. eauto.
Qed.


(** ** Failures counted apart from checks *)

Lemma check_false_state (o : options) (key : list Z) (now now_sweep : Z)
    records :
  (check o key false now now_sweep records).2
    = swept o key now now_sweep records.
Proof.
  rewrite check_unfold.
  destruct (swept o key now now_sweep records !! key); [case_bool_decide|];
    done.
Qed.

Lemma failures_cons (c : call) (calls : list call) :
  failures (c :: calls)
    = (if is_recordFailure c then 1 else 0) + failures calls.
Proof.
  unfold failures. simpl. destruct (is_recordFailure c); simpl; lia.
Qed.

Lemma run_invite_calls (o : options) (key : list Z) (R : Z)
    (calls : list call) :
  Forall (invite_call key R) calls →
  ∀ records c, records !! key = Some (Rec c R) →
  run o calls records !! key = Some (Rec (c + failures calls) R).
Proof.
  unfold run. induction 1 as [|call calls Hcall _ IH]; intros records c Hk.
  - simpl. rewrite Hk. unfold failures. simpl. do 2 f_equal. lia.
  - simpl. rewrite failures_cons.
    destruct call as [k [|] now now'|k now| |]; simpl in Hcall; try done.
    + destruct Hcall as (-> & Hnow & Hnow'). simpl.
      rewrite check_false_state.
      rewrite (IH _ c); [do 2 f_equal; lia|]. by apply swept_live.
    + destruct Hcall as [-> Hnow]. simpl.
      rewrite (IH _ (c + 1)); [do 2 f_equal; lia|].
      unfold recordFailure. rewrite Hk. simpl.
      rewrite bool_decide_eq_false_2 by lia. by rewrite lookup_insert_eq.
Qed.

(** X4. Failures are counted apart from checks. After a
    [recordFailure(key)] that opens a window, any mix of further
    [recordFailure(key)] and [check(key, false)] calls before [resetAt]
    leaves the count at the number of recorded failures: the checks use
    up nothing. A [check(key, false)] then blocks exactly when that number
    has reached [maxAttempts], and otherwise reports what is left. *)
Theorem failures_counted (o : options) (key : list Z) (t1 : Z)
    (calls : list call) records :
  (∀ r, records !! key = Some r → t1 > resetAt r) →
  Forall (invite_call key (t1 + windowMs o)) calls →
  run o (RecordFailure key t1 :: calls) records !! key
    = Some (Rec (1 + failures calls) (t1 + windowMs o)) ∧
  ∀ t t', t ≤ t1 + windowMs o → t' ≤ t1 + windowMs o →
    (check o key false t t'
       (run o (RecordFailure key t1 :: calls) records)).1
    = if bool_decide (1 + failures calls >= maxAttempts o)
      then CheckResult false 0
             (Some (Math_ceil_div (t1 + windowMs o - t) 1000))
      else CheckResult true (maxAttempts o - (1 + failures calls)) None.
Proof.
  intros Hdead Hcalls.
  assert (run o (RecordFailure key t1 :: calls) records !! key
          = Some (Rec (1 + failures calls) (t1 + windowMs o))) as Hfin.
  { unfold run. simpl. apply (run_invite_calls o key _ calls Hcalls).
    unfold recordFailure. destruct (records !! key) as [r|] eqn:Hk.
    - rewrite bool_decide_eq_true_2 by eauto. by rewrite lookup_insert_eq.
    - by rewrite lookup_insert_eq. }
  split; [done|]. intros t t' Ht Ht'.
  rewrite check_unfold, (swept_live _ _ _ _ _ _ _ Hfin) by done. simpl.
  by case_bool_decide.
Qed.

Lemma failures_counted_witness :
  let o := Options 3600000 2 500 in
  let calls := [Check (js "ip") false 20 20; RecordFailure (js "ip") 30] in
  run o (RecordFailure (js "ip") 10 :: calls) ∅ !! js "ip"
    = Some (Rec 2 3600010).
Proof.
  destruct (failures_counted (Options 3600000 2 500) (js "ip") 10
              [Check (js "ip") false 20 20; RecordFailure (js "ip") 30] ∅)
    as [Hfin _].
  - intros r Hr. rewrite lookup_empty in Hr. discriminate Hr.
  - repeat constructor; simpl; lia.
  - exact Hfin.
Defined.

(** ** Counts in the states an instance can reach *)

(** Where a record found after [check] comes from. *)
Lemma check_state_lookup (o : options) (key : list Z) (increment : bool)
    (now now_sweep : Z) records (k : list Z) (r' : record) :
  (check o key increment now now_sweep records).2 !! k = Some r' →
  records !! k = Some r'
  ∨ (k = key ∧ r' = Rec 1 (now + windowMs o))
  ∨ (k = key ∧ ∃ r, records !! key = Some r ∧ count r < maxAttempts o
                    ∧ r' = Rec (count r + 1) (resetAt r)).
Proof.
  destruct (decide (k = key)) as [->|Hne].
  - rewrite check_unfold.
    destruct (swept o key now now_sweep records !! key) as [r|] eqn:Hs.
    + pose proof (swept_lookup_Some _ _ _ _ _ _ _ Hs) as Hr.
      case_bool_decide; simpl; [intros Hl; left; congruence|].
      destruct increment; simpl; [|intros Hl; left; congruence].
      rewrite lookup_insert_eq. intros [= <-].
      right. right. split; [done|]. exists r. repeat split; [done|lia].
    + destruct increment; simpl.
      * rewrite lookup_insert_eq. intros [= <-]. right. left. done.
      * intros Hl. congruence.
  - rewrite check_state_other by done. intros Hs. left.
    by eapply swept_lookup_Some.
Qed.

(** What a call keeps true of every record. *)
Lemma apply_call_counts (o : options) (bounded : bool) records (c : call) :
  (bounded = true → is_recordFailure c = false ∧ maxAttempts o > 0) →
  (∀ k r, records !! k = Some r →
     1 ≤ count r ∧ (bounded = true → count r ≤ maxAttempts o)) →
  ∀ k r, apply_call o records c !! k = Some r →
    1 ≤ count r ∧ (bounded = true → count r ≤ maxAttempts o).
Proof.
  intros Hb Hinv k r' Hl.
  destruct c as [key inc now now'|key now|now|key]; simpl in Hl.
  - apply check_state_lookup in Hl as [Hl|[[-> ->]|[-> (r & Hr & Hc & ->)]]].
    + eauto.
    + simpl. split; [lia|]. intros Hbt. destruct (Hb Hbt). lia.
    + simpl. destruct (Hinv _ _ Hr). split; lia.
  - split.
    + unfold recordFailure in Hl. destruct (decide (k = key)) as [->|Hne].
      * destruct (records !! key) as [r|] eqn:Hr; [case_bool_decide|];
          rewrite lookup_insert_eq in Hl; injection Hl as <-; simpl;
          try lia. destruct (Hinv _ _ Hr). lia.
      * destruct (records !! key) as [r|] eqn:Hr; [case_bool_decide|];
          rewrite lookup_insert_ne in Hl by done; by apply (Hinv k).
    + intros Hbt. destruct (Hb Hbt). discriminate.
  - apply cleanup_lookup_Some in Hl as [Hl _]. eauto.
  - unfold reset in Hl. apply lookup_delete_Some in Hl as [_ Hl]. eauto.
Qed.

Lemma run_counts (o : options) (bounded : bool) (calls : list call) :
  (bounded = true →
   Forall (λ c, is_recordFailure c = false) calls ∧ maxAttempts o > 0) →
  ∀ records,
  (∀ k r, records !! k = Some r →
     1 ≤ count r ∧ (bounded = true → count r ≤ maxAttempts o)) →
  ∀ k r, run o calls records !! k = Some r →
    1 ≤ count r ∧ (bounded = true → count r ≤ maxAttempts o).
Proof.
  unfold run. induction calls as [|c calls IH]; intros Hb records Hinv;
    simpl; [done|].
  apply IH.
  - intros Hbt. destruct (Hb Hbt) as [Hall ?].
    apply Forall_cons in Hall as [_ Hall]. done.
  - apply apply_call_counts; [|done].
    intros Hbt. destruct (Hb Hbt) as [Hall ?].
    apply Forall_cons in Hall as [Hc _]. done.
Qed.

(** X5. In every state a limiter reaches from its empty map, whatever
    the calls and their clock readings, each record has a count of at
    least 1; and as long as [recordFailure] is not used, [check] never lets
    a count pass [maxAttempts]. *)
Theorem reachable_counts (o : options) (calls : list call) (k : list Z)
    (r : record) :
  maxAttempts o > 0 →
  run o calls ∅ !! k = Some r →
  1 ≤ count r ∧
  (Forall (λ c, is_recordFailure c = false) calls →
   count r ≤ maxAttempts o).
Proof.
  intros Hmax Hr. split.
  - apply (run_counts o false calls) with (records := ∅) (k := k);
      [discriminate| |done].
    intros k' r' Hl. rewrite lookup_empty in Hl. discriminate Hl.
  - intros Hcalls.
    apply (run_counts o true calls) with (records := ∅) (k := k);
      [done| |done|done].
    intros k' r' Hl. rewrite lookup_empty in Hl. discriminate Hl.
Qed.

Lemma reachable_counts_witness :
  let o := Options 60000 2 1000 in
  let calls :=
    [Check (js "ip") true 10 10; Check (js "ip") true 20 20;
     Check (js "ip") true 30 30] in
  1 ≤ count (Rec 2 60010) ∧ count (Rec 2 60010) ≤ maxAttempts o.
Proof.
  destruct (reachable_counts (Options 60000 2 1000)
              [Check (js "ip") true 10 10; Check (js "ip") true 20 20;
               Check (js "ip") true 30 30] (js "ip") (Rec 2 60010))
    as [Hone Hmax].
  - simpl. lia.
  - vm_compute. reflexivity.
  - split; [exact Hone|]. apply Hmax. repeat constructor.
Defined.

(** X6. On every state a limiter reaches from its empty map, the result
    of [check] is well formed: an allowed result has [remaining] between
    0 and [maxAttempts - 1] and no [retryAfter]; a blocked result has
    [remaining = 0] and a [retryAfter] that is not negative. *)
Theorem check_result_bounds (o : options) (calls : list call)
    (key : list Z) (increment : bool) (now now_sweep : Z) :
  maxAttempts o > 0 →
  (allowed (check o key increment now now_sweep (run o calls ∅)).1 = true →
   0 ≤ remaining (check o key increment now now_sweep (run o calls ∅)).1
     ≤ maxAttempts o - 1 ∧
   retryAfter (check o key increment now now_sweep (run o calls ∅)).1
     = None) ∧
  (allowed (check o key increment now now_sweep (run o calls ∅)).1 = false →
   remaining (check o key increment now now_sweep (run o calls ∅)).1 = 0 ∧
   ∃ q, retryAfter (check o key increment now now_sweep (run o calls ∅)).1
          = Some q ∧ 0 ≤ q).
Proof.
  intros Hmax. rewrite check_unfold.
  destruct (swept o key now now_sweep (run o calls ∅) !! key) as [r|] eqn:Hs.
  - pose proof (swept_key_live _ _ _ _ _ _ Hs) as Hlive.
    apply swept_lookup_Some in Hs.
    assert (1 ≤ count r) as Hone.
    { apply (run_counts o false calls) with (records := ∅) (k := key);
        [discriminate| |done].
      intros k' r' Hl. rewrite lookup_empty in Hl. discriminate Hl. }
    case_bool_decide; simpl.
    + split; [discriminate|]. intros _. split; [done|].
      eexists. split; [done|].
      pose proof (Math_ceil_div_spec (resetAt r - now) 1000). lia.
    + destruct increment; simpl; (split; [|discriminate]); intros _;
        (split; [lia|done]).
  - destruct increment; simpl; (split; [|discriminate]); intros _;
      (split; [lia|done]).
Qed.

Lemma check_result_bounds_witness :
  let o := Options 60000 2 1000 in
  let calls := [Check (js "ip") true 10 10; Check (js "ip") true 20 20] in
  remaining (check o (js "ip") true 30 30 (run o calls ∅)).1 = 0 ∧
  ∃ q, retryAfter (check o (js "ip") true 30 30 (run o calls ∅)).1 = Some q
       ∧ 0 ≤ q.
Proof.
  destruct (check_result_bounds (Options 60000 2 1000)
              [Check (js "ip") true 10 10; Check (js "ip") true 20 20]
              (js "ip") true 30 30) as [_ Hblocked].
  - simpl. lia.
  - apply Hblocked. vm_compute. reflexivity.
Defined.

(** ** The sweep of a large map *)


(** ** The factories *)

(** X8. The two preset factories replace a missing or zero [windowMs],
    limit or [cleanupThreshold] by their defaults (60000 / 10 / 1000 for
    connections, 3600000 / 10 / 500 for invites) and take any other value
    as it is; they start from an empty map and succeed whenever no given
    [windowMs] or limit is negative. A negative [windowMs] is the error of
    [createRateLimiter] about [windowMs]; otherwise a negative limit is its
    error about [maxAttempts]. The threshold is not checked. *)
Theorem preset_factories (windowMs_ limit_ threshold_ : option Z) :
  ((∀ x, windowMs_ = Some x → 0 ≤ x) → (∀ x, limit_ = Some x → 0 ≤ x) →
   createConnectionRateLimiter windowMs_ limit_ threshold_
     = inr (Options (or_default windowMs_ 60000) (or_default limit_ 10)
              (or_default threshold_ 1000), ∅)
   ∧ createInviteRateLimiter windowMs_ limit_ threshold_
     = inr (Options (or_default windowMs_ 3600000) (or_default limit_ 10)
              (or_default threshold_ 500), ∅)
   ∧ or_default windowMs_ 60000 > 0 ∧ or_default windowMs_ 3600000 > 0
   ∧ or_default limit_ 10 > 0) ∧
  (∀ x, windowMs_ = Some x → x < 0 →
   createConnectionRateLimiter windowMs_ limit_ threshold_
     = inl "windowMs must be a positive number"%string
   ∧ createInviteRateLimiter windowMs_ limit_ threshold_
     = inl "windowMs must be a positive number"%string) ∧
  ((∀ x, windowMs_ = Some x → 0 ≤ x) → ∀ x, limit_ = Some x → x < 0 →
   createConnectionRateLimiter windowMs_ limit_ threshold_
     = inl "maxAttempts must be a positive number"%string
   ∧ createInviteRateLimiter windowMs_ limit_ threshold_
     = inl "maxAttempts must be a positive number"%string).
Proof.
  assert (∀ a d, (∀ x, a = Some x → 0 ≤ x) → d > 0 → or_default a d > 0)
    as Hpos.
  { intros [x|] d Hx Hd; simpl; [|done].
    specialize (Hx x eq_refl). case_bool_decide; lia. }
  unfold createConnectionRateLimiter, createInviteRateLimiter,
    createRateLimiter.
  change (60 * 1000) with 60000. change (60 * 60 * 1000) with 3600000.
  split; [|split].
  - intros Hw Hl.
    pose proof (Hpos windowMs_ 60000 Hw ltac:(lia)).
    pose proof (Hpos windowMs_ 3600000 Hw ltac:(lia)).
    pose proof (Hpos limit_ 10 Hl ltac:(lia)).
    rewrite !(bool_decide_eq_false_2 (_ = 0)) by lia.
    rewrite !(bool_decide_eq_false_2 (_ ≤ 0)) by lia. simpl.
    repeat split; done.
  - intros x -> Hx. simpl or_default.
    rewrite !(bool_decide_eq_false_2 (x = 0)) by lia.
    rewrite !(bool_decide_eq_true_2 (x ≤ 0)) by lia.
    rewrite !orb_true_r. done.
  - intros Hw x -> Hx.
    pose proof (Hpos windowMs_ 60000 Hw ltac:(lia)).
    pose proof (Hpos windowMs_ 3600000 Hw ltac:(lia)).
    simpl (or_default (Some x) _).
    rewrite !(bool_decide_eq_false_2 (x = 0)) by lia.
    rewrite !(bool_decide_eq_false_2 (or_default windowMs_ _ = 0)) by lia.
    rewrite !(bool_decide_eq_false_2 (or_default windowMs_ _ ≤ 0)) by lia.
    rewrite !(bool_decide_eq_true_2 (x ≤ 0)) by lia.
    simpl. done.
Qed.

End RateLimitCallsFacts.

(** ** session.js: the shape of tokens, what is accepted, expiry *)

Module SessionMoreFacts.
Import JS Encoding Session JSFacts EncodingFacts Utf8Facts SHA256Facts
  SessionFacts.

(** ** More on the built-ins and the encodings *)

Lemma split_join sep s : join [sep] (split sep s) = s.
Proof.
  induction s as [|c s IH]; [done|]. simpl.
  destruct (Z.eqb_spec c sep) as [->|Hne].
  - pose proof (split_nonempty sep s).
    destruct (split sep s) as [|p ps] eqn:Hs; [done|].
    simpl in *. by rewrite IH.
  - pose proof (split_nonempty sep s).
    destruct (split sep s) as [|p ps] eqn:Hs; [done|].
    rewrite <- IH. by destruct ps.
Qed.

Lemma split_parts sep s : Forall (λ p, sep ∉ p) (split sep s).
Proof.
  induction s as [|c s IH]; simpl.
  - constructor; [apply not_elem_of_nil|constructor].
  - destruct (Z.eqb_spec c sep) as [->|Hne].
    + constructor; [apply not_elem_of_nil|done].
    + destruct (split sep s) as [|p ps]; [repeat constructor|].
      * intros Hin. apply list_elem_of_singleton in Hin. done.
      * apply Forall_cons in IH as [Hp Hps]. constructor; [|done].
        intros Hin. apply elem_of_cons in Hin as [?|?]; done.
Qed.

(** There is one part more than there are separators. *)
Lemma split_length sep s :
  length (split sep s) = S (length (filter (λ c, c = sep) s)).
Proof.
  induction s as [|c s IH]; [done|]. simpl. rewrite filter_cons.
  destruct (Z.eqb_spec c sep) as [->|Hne].
  - rewrite decide_True by done. simpl. by rewrite IH.
  - rewrite decide_False by done. rewrite <- IH.
    pose proof (split_nonempty sep s). by destruct (split sep s).
Qed.

Lemma split_two sep s a b :
  split sep s = [a; b] → s = a ++ sep :: b ∧ (sep ∉ a) ∧ (sep ∉ b).
Proof.
  intros Hs. pose proof (split_join sep s) as Hj.
  pose proof (split_parts sep s) as Hp. rewrite Hs in Hj, Hp.
  apply Forall_cons in Hp as [Ha Hp]. apply Forall_cons in Hp as [Hb _].
  simpl in Hj. done.
Qed.



(** What follows the digits of the digest is not read when it does not
    start with two hexadecimal digits. *)
Lemma hex_decode_encode_app b junk :
  octets b → hex_decode junk = [] → hex_decode (hex_encode b ++ junk) = b.
Proof.
  intros Hb Hjunk. induction Hb as [|x b Hx _ IH]; [done|].
  simpl. rewrite !unhex_hex_digit.
  - rewrite IH. f_equal. pose proof (Z.div_mod x 16 ltac:(lia)). lia.
  - apply Z.mod_pos_bound. lia.
  - split; [apply Z.div_pos; lia | apply Z.div_lt_upper_bound; lia].
Qed.





(** ** Generated tokens *)



(** X10. A token determines what it was generated from: two calls of
    [generateSessionToken] that return the same token, under whatever
    secrets, were made at the same clock reading for session ids with the
    same well-formed form, hence for the same session id when neither
    has an unpaired surrogate. *)
Theorem generateSessionToken_injective (sessionId sessionId' : list Z)
    (secret secret' : list Z) (now now' : Z) (token : list Z) :
  code_units sessionId → code_units sessionId' →
  generateSessionToken sessionId secret now = inr token →
  generateSessionToken sessionId' secret' now' = inr token →
  to_well_formed sessionId = to_well_formed sessionId' ∧ now = now' ∧
  (well_formed sessionId → well_formed sessionId' → sessionId = sessionId').
Proof.
  intros Hcu Hcu' Hgen Hgen'.
  assert (sessionId ≠ [] ∧ secret ≠ []) as [Hid Hs].
  { unfold generateSessionToken in Hgen.
    repeat case_bool_decide; try discriminate. done. }
  assert (sessionId' ≠ [] ∧ secret' ≠ []) as [Hid' Hs'].
  { unfold generateSessionToken in Hgen'.
    repeat case_bool_decide; try discriminate. done. }
  rewrite generateSessionToken_unfold in Hgen, Hgen' by done.
  pose proof (split_generated sessionId secret now Hcu) as Hsp.
  pose proof (split_generated sessionId' secret' now' Hcu') as Hsp'.
  assert (base64_encode (utf8_encode (token_data sessionId now))
          = base64_encode (utf8_encode (token_data sessionId' now')))
    as Hdata by congruence.
  clear Hsp Hsp' Hgen Hgen'.
  apply (f_equal try_decode) in Hdata.
  rewrite !try_decode_generated in Hdata by done. injection Hdata as Hdata.
  pose proof (f_equal (lastIndexOf 58) Hdata) as Hidx.
  rewrite !lastIndexOf_app in Hidx by apply Number_toString_plain.
  pose proof (f_equal (λ d, slice d 0
                (Z.of_nat (length (to_well_formed sessionId')))) Hdata)
    as Hpre. simpl in Hpre.
  rewrite <- Hidx in Hpre at 1. rewrite !slice_prefix in Hpre.
  pose proof (f_equal (λ d, parseInt10 (slice_from d
                (Z.of_nat (length (to_well_formed sessionId')) + 1))) Hdata)
    as Hnum. simpl in Hnum.
  rewrite <- Hidx in Hnum at 1.
  rewrite !slice_from_suffix, !parseInt10_Number_toString in Hnum.
  injection Hnum as <-.
  split; [done|]. split; [done|].
  unfold well_formed. intros Hwf Hwf'. congruence.
Qed.

Lemma generateSessionToken_injective_witness :
  ∃ token,
    generateSessionToken (js "abc-123") (js "s3cr3t") 1705000000000
      = inr token ∧
    (js "abc-123" = js "abc-123" ∧ 1705000000000 = 1705000000000).
Proof.
  destruct (generateSessionToken (js "abc-123") (js "s3cr3t") 1705000000000)
    as [e|token] eqn:Hgen; [vm_compute in Hgen; discriminate Hgen|].
  exists token. split; [reflexivity|].
  destruct (generateSessionToken_injective (js "abc-123") (js "abc-123")
              (js "s3cr3t") (js "s3cr3t") 1705000000000 1705000000000 token)
    as (_ & Hnow & Hsid).
  - repeat constructor; lia.
  - repeat constructor; lia.
  - exact Hgen.
  - exact Hgen.
  - split; [apply Hsid; reflexivity | exact Hnow].
Defined.


(** ** Validation *)

(** X11. The first three rejections of [validateSessionToken]: an empty
    token, then an empty secret, then a token that does not contain
    exactly one ['.']. For a non-empty token and secret the result is
    "Invalid token format" exactly when the number of ['.'] in the token is
    not one. *)
Theorem validateSessionToken_format (token secret : list Z) :
  (token = [] →
   validateSessionToken token secret
     = Rejected "Token must be a non-empty string") ∧
  (token ≠ [] → secret = [] →
   validateSessionToken token secret
     = Rejected "Secret must be a non-empty string") ∧
  (token ≠ [] → secret ≠ [] →
   (validateSessionToken token secret = Rejected "Invalid token format"
    ↔ length (filter (λ c, c = 46) token) ≠ 1%nat)).
Proof.
  split; [|split].
  - intros ->. done.
  - intros Ht ->. unfold validateSessionToken.
    by rewrite bool_decide_eq_false_2.
  - intros Ht Hs. pose proof (split_length 46 token) as Hlen.
    destruct (split 46 token) as [|encodedData [|signature [|p ps]]] eqn:Hsp.
    + simpl in Hlen. lia.
    + unfold validateSessionToken.
      rewrite !bool_decide_eq_false_2, Hsp by done. simpl in Hlen.
      split; [lia|done].
    + rewrite (validateSessionToken_unfold _ _ _ _ Ht Hs Hsp). cbv zeta.
      simpl in Hlen. split; [|lia].
      case_bool_decide; [|discriminate].
      destruct (_ =? _); [discriminate|].
      destruct (parseInt10 _); discriminate.
    + unfold validateSessionToken.
      rewrite !bool_decide_eq_false_2, Hsp by done. simpl in Hlen.
      split; [lia|done].
Qed.

(** X12. Characters after the signature are not looked at: a generated
    token followed by anything that contains no ['.'] and does not start
    with two hexadecimal digits is accepted like the token itself. *)
Theorem validate_trailing_characters (sessionId secret junk : list Z)
    (now : Z) :
  sessionId ≠ [] → secret ≠ [] → code_units sessionId →
  46 ∉ junk → hex_decode junk = [] →
  ∃ token,
    generateSessionToken sessionId secret now = inr token ∧
    validateSessionToken (token ++ junk) secret
      = Accepted (to_well_formed sessionId) now ∧
    validateSessionToken token secret
      = Accepted (to_well_formed sessionId) now.
Proof.
  intros Hid Hs Hcu Hdot Hjunk.
  destruct (validate_generated sessionId secret secret now Hid Hs Hs Hcu)
    as (token & Hgen & Hval).
  rewrite bool_decide_eq_true_2 in Hval by done.
  exists token. split; [done|]. split; [|done].
  assert (token = base64_encode (utf8_encode (token_data sessionId now))
                  ++ js "." ++ hmac_hex secret (token_data sessionId now))
    as Htok
    by (rewrite generateSessionToken_unfold in Hgen by done; congruence).
  clear Hgen. subst token.
  pose proof (split_generated sessionId secret now Hcu) as Hsp.
  pose proof (hmac_digest (utf8_encode secret)
                (utf8_encode (token_data sessionId now))) as [_ Hoct].
  assert (split 46 ((base64_encode (utf8_encode (token_data sessionId now))
                     ++ js "."
                     ++ hmac_hex secret (token_data sessionId now)) ++ junk)
          = [base64_encode (utf8_encode (token_data sessionId now));
             hmac_hex secret (token_data sessionId now) ++ junk]) as Hsp'.
  { rewrite <- !(assoc_L (++)). change (js "." ++ ?t) with (46 :: t).
    rewrite split_app
      by (by apply base64_encode_no_dot, utf8_encode_octets,
               token_data_code_units).
    rewrite split_no_sep; [done|].
    rewrite elem_of_app. intros [Hin|Hin]; [|done].
    by apply (hex_encode_no_dot _ Hoct). }
  assert (∀ (a b : list Z), a ++ js "." ++ b ≠ []) as Hne
    by (by intros a b [_ ?]%app_eq_nil).
  rewrite (validateSessionToken_unfold
             ((base64_encode (utf8_encode (token_data sessionId now))
               ++ js "." ++ hmac_hex secret (token_data sessionId now))
              ++ junk) secret _ _
             (λ H, Hne _ _ (proj1 (app_eq_nil _ _ H))) Hs Hsp').
  rewrite (validateSessionToken_unfold _ secret _ _ (Hne _ _) Hs Hsp)
    in Hval.
  cbv zeta in *. case_bool_decide as Heq; [|discriminate].
  rewrite bool_decide_eq_true_2; [exact Hval|].
  rewrite <- Heq. unfold hmac_hex.
  by rewrite hex_decode_encode_app, hex_decode_encode.
Qed.

Lemma validate_trailing_characters_witness :
  ∃ token,
    generateSessionToken (js "abc-123") (js "s3cr3t") 1705000000000
      = inr token ∧
    validateSessionToken (token ++ js "zz-anything") (js "s3cr3t")
      = Accepted (js "abc-123") 1705000000000.
Proof.
  destruct (validate_trailing_characters (js "abc-123") (js "s3cr3t")
              (js "zz-anything") 1705000000000)
    as (token & Hgen & Hval & _).
  - discriminate.
  - discriminate.
  - repeat constructor; lia.
  - vm_compute.
    intros Hin. repeat (apply elem_of_cons in Hin as [Hin|Hin];
                        [discriminate Hin|]).
    by apply elem_of_nil in Hin.
  - reflexivity.
  - exists token. split; [exact Hgen | exact Hval].
Defined.

(** X13. Nothing is accepted without a matching signature: when
    [validateSessionToken] accepts, the token is a data part, one ['.']
    and a signature part whose bytes are the HMAC-SHA256, under the given
    secret, of the decoded data, and that data is the returned session id,
    a [':'], and a numeral without [':'] that [parseInt] reads as the
    returned timestamp. *)
Theorem validate_accepted_authentic (token secret sid : list Z) (t : Z) :
  validateSessionToken token secret = Accepted sid t →
  secret ≠ [] ∧
  ∃ encodedData signature numeral,
    token = encodedData ++ 46 :: signature ∧
    (46 ∉ encodedData) ∧ (46 ∉ signature) ∧
    utf8_decode (base64_decode encodedData) = sid ++ 58 :: numeral ∧
    (58 ∉ numeral) ∧ parseInt10 numeral = Some t ∧
    hex_decode signature
      = SHA256.hmac (utf8_encode secret) (utf8_encode (sid ++ 58 :: numeral)).
Proof.
  intros Hval.
  destruct (decide (token = [])) as [->|Ht]; [discriminate|].
  destruct (decide (secret = [])) as [->|Hs].
  { unfold validateSessionToken in Hval.
    rewrite bool_decide_eq_false_2 in Hval by done. discriminate. }
  split; [done|].
  destruct (validate_accepted _ _ _ _ Hval)
    as (enc & sg & numeral & Hsp & Hdata & Hnum & Hparse).
  exists enc, sg, numeral.
  destruct (split_two _ _ _ _ Hsp) as (Htok & Henc & Hsg).
  repeat split; try done.
  rewrite (validateSessionToken_unfold _ _ _ _ Ht Hs Hsp) in Hval.
  cbv zeta in Hval. case_bool_decide as Heq; [|discriminate].
  by rewrite <- Hdata.
Qed.

Lemma validate_accepted_authentic_witness :
  ∃ encodedData signature numeral,
    js "YWJjLTEyMzoxNzA1MDAwMDAwMDAw.a1cac9ef29d052ce5f57cab3b2f7a41333e2a467b2371cc502f5bba900c82528"
      = encodedData ++ 46 :: signature ∧
    hex_decode signature
      = SHA256.hmac (utf8_encode (js "s3cr3t"))
          (utf8_encode (js "abc-123" ++ 58 :: numeral)).
Proof.
  destruct (validate_accepted_authentic
              (js "YWJjLTEyMzoxNzA1MDAwMDAwMDAw.a1cac9ef29d052ce5f57cab3b2f7a41333e2a467b2371cc502f5bba900c82528")
              (js "s3cr3t") (js "abc-123") 1705000000000)
    as (_ & e & sg & numeral & Htok & _ & _ & _ & _ & _ & Hsig).
  - vm_compute. reflexivity.
  - exists e, sg, numeral. split; [exact Htok | exact Hsig].
Defined.

(** ** Expiry *)

(** X14. The age of a freshly generated token: for a token generated at
    clock reading [issued] (non-empty session id and secret),
    [isSessionTokenExpired] at clock reading [now] reports
    [ageMs = now - issued] and no error, and it reports the token expired
    exactly when [now - issued > maxAgeMs]: not yet at
    [issued + maxAgeMs], from [issued + maxAgeMs + 1] on. *)
Theorem fresh_token_expiry (sessionId secret : list Z)
    (issued maxAgeMs now : Z) :
  sessionId ≠ [] → secret ≠ [] → code_units sessionId →
  ∃ token,
    generateSessionToken sessionId secret issued = inr token ∧
    ageMs (isSessionTokenExpired token secret maxAgeMs now)
      = Some (now - issued) ∧
    expiry_error (isSessionTokenExpired token secret maxAgeMs now) = None ∧
    (expired (isSessionTokenExpired token secret maxAgeMs now) = true
     ↔ now - issued > maxAgeMs) ∧
    expired (isSessionTokenExpired token secret maxAgeMs (issued + maxAgeMs))
      = false ∧
    expired (isSessionTokenExpired token secret maxAgeMs
               (issued + maxAgeMs + 1)) = true.
Proof.
  intros Hid Hs Hcu.
  destruct (validate_generated sessionId secret secret issued Hid Hs Hs Hcu)
    as (token & Hgen & Hval).
  rewrite bool_decide_eq_true_2 in Hval by done.
  exists token. split; [done|]. unfold isSessionTokenExpired.
  rewrite Hval. simpl. split; [done|]. split; [done|].
  split; [apply bool_decide_eq_true|]. split.
  - apply bool_decide_eq_false. lia.
  - apply bool_decide_eq_true. lia.
Qed.

Lemma fresh_token_expiry_witness :
  ∃ token,
    generateSessionToken (js "session") (js "test-secret") 1705000000000
      = inr token ∧
    expired (isSessionTokenExpired token (js "test-secret") 60000
               1705000000500) = false.
Proof.
  destruct (fresh_token_expiry (js "session") (js "test-secret")
              1705000000000 60000 1705000000500)
    as (token & Hgen & _ & _ & Hexp & _).
  - discriminate.
  - discriminate.
  - repeat constructor; lia.
  - exists token. split; [exact Hgen|].
    destruct (expired (isSessionTokenExpired token (js "test-secret") 60000
                         1705000000500)); [|reflexivity].
    exfalso. assert (1705000000500 - 1705000000000 > 60000) as Hage
      by (apply Hexp; reflexivity). lia.
Defined.

(** X15. Expiry only moves one way: a token reported expired stays
    expired at any later clock reading and under any smaller [maxAgeMs],
    whether it is rejected or accepted; and the answer never has both an
    age and an error. *)
Theorem expiry_monotone (token secret : list Z)
    (maxAgeMs maxAgeMs' now now' : Z) :
  now ≤ now' → maxAgeMs' ≤ maxAgeMs →
  (expired (isSessionTokenExpired token secret maxAgeMs now) = true →
   expired (isSessionTokenExpired token secret maxAgeMs' now') = true) ∧
  (is_Some (ageMs (isSessionTokenExpired token secret maxAgeMs now))
   ↔ expiry_error (isSessionTokenExpired token secret maxAgeMs now) = None).
Proof.
  intros Hnow Hmax. unfold isSessionTokenExpired.
  destruct (validateSessionToken token secret) as [e|sid t]; simpl.
  - split; [done|]. split; [intros [? ?]; discriminate|discriminate].
  - split; [|by split; eauto].
    rewrite !bool_decide_eq_true. lia.
Qed.

Lemma expiry_monotone_witness :
  expired (isSessionTokenExpired (js "invalid") (js "test-secret") 1000
             1705000000001) = true.
Proof.
  apply (expiry_monotone (js "invalid") (js "test-secret") 60000 1000
           1705000000000 1705000000001).
  - lia.
  - lia.
  - reflexivity.
Defined.

End SessionMoreFacts.

(** ** env-file.js: one env file and the manager *)

Module EnvFileManagerFacts.
Import JS EnvFile EnvFileManager.

Implicit Types (h : host) (w : world) (f : env_file) (st : manager * world).
Implicit Types (unlink_error : list Z → option (string * string)).

(** ** One env file *)

(** X16. [createSessionEnvFile] succeeds exactly when the three strings
    are not empty, [credentials] is an object, [mkdirSync] throws nothing
    but [EEXIST], and [writeFileSync] does not throw. *)
Theorem createSessionEnvFile_succeeds h (opts : env_options)
    (files : gmap (list Z) (list Z * Z)) :
  (∃ r, createSessionEnvFile h opts files = inr r)
  ↔ sessionId opts ≠ [] ∧ containerPath opts ≠ [] ∧ hostPath opts ≠ [] ∧
    is_Some (credentials opts) ∧
    (∀ code message,
       mkdirSync h (containerPath opts) = Some (code, message) →
       code = "EEXIST"%string) ∧
    writeFileSync h
      (path_join h (containerPath opts) (filename (sessionId opts))) = None.
Proof.
  unfold createSessionEnvFile, mkdir_failure, filename.
  destruct (decide (sessionId opts = [])) as [Hs|Hs].
  { rewrite bool_decide_eq_true_2 by done.
    split; [intros [? [=]] | by intros (? & _)]. }
  rewrite (bool_decide_eq_false_2 (sessionId opts = [])) by done.
  destruct (decide (containerPath opts = [])) as [Hc|Hc].
  { rewrite bool_decide_eq_true_2 by done.
    split; [intros [? [=]] | by intros (_ & ? & _)]. }
  rewrite (bool_decide_eq_false_2 (containerPath opts = [])) by done.
  destruct (decide (hostPath opts = [])) as [Hh|Hh].
  { rewrite bool_decide_eq_true_2 by done.
    split; [intros [? [=]] | by intros (_ & _ & ? & _)]. }
  rewrite (bool_decide_eq_false_2 (hostPath opts = [])) by done.
  destruct (credentials opts) as [c|];
    [|split; [intros [? [=]] | intros (_ & _ & _ & [? [=]] & _)]].
  destruct (mkdirSync h (containerPath opts)) as [[code message]|] eqn:Hmk.
  - destruct (decide (code = "EEXIST"%string)) as [->|Hcode].
    + rewrite bool_decide_eq_false_2 by (by intros ?).
      destruct (writeFileSync h _) eqn:Hwr.
      * split; [intros [? [=]] | intros (_ & _ & _ & _ & _ & [=])].
      * split; [|by eauto]. intros _. repeat split; eauto.
        by intros ?? [= <- _].
    + rewrite bool_decide_eq_true_2 by done.
      split; [intros [? [=]] | intros (_ & _ & _ & _ & Hok & _)].
      by specialize (Hok _ _ eq_refl).
  - destruct (writeFileSync h _) eqn:Hwr.
    + split; [intros [? [=]] | intros (_ & _ & _ & _ & _ & [=])].
    + split; [|by eauto]. intros _. repeat split; eauto. done.
Qed.

Lemma createSessionEnvFile_inr h (opts : env_options)
    (files files' : gmap (list Z) (list Z * Z)) f :
  createSessionEnvFile h opts files = inr (f, files') →
  sessionId opts ≠ [] ∧
  f = EnvFileInfo
        (path_join h (containerPath opts) (filename (sessionId opts)))
        (path_join h (hostPath opts) (filename (sessionId opts))) ∧
  ∃ c, credentials opts = Some c ∧
       files' = <[fullContainerPath f :=
                    (envContent c,
                     default 384 (snd <$> files !! fullContainerPath f))]>
                  files.
Proof.
  unfold createSessionEnvFile, filename.
  repeat case_bool_decide; try discriminate.
  destruct (credentials opts) as [c|]; [|discriminate].
  destruct (mkdir_failure _); [discriminate|].
  destruct (writeFileSync h _); [discriminate|].
  intros [= <- <-]. split; [done|]. split; [done|]. by exists c.
Qed.

(** X17. What a successful [createSessionEnvFile] does to the file store:
    the two returned paths are the two directories joined with
    [session-<sessionId>.env]; only the file at the container path is
    touched; a file that did not exist gets mode 0600, an existing one is
    overwritten and keeps its mode; and the same call again changes
    nothing. *)
Theorem createSessionEnvFile_frame h (opts : env_options)
    (files files' : gmap (list Z) (list Z * Z)) f :
  createSessionEnvFile h opts files = inr (f, files') →
  fullContainerPath f
    = path_join h (containerPath opts) (filename (sessionId opts)) ∧
  fullHostPath f
    = path_join h (hostPath opts) (filename (sessionId opts)) ∧
  (∀ p, p ≠ fullContainerPath f → files' !! p = files !! p) ∧
  (files !! fullContainerPath f = None →
   snd <$> files' !! fullContainerPath f = Some 384) ∧
  (∀ content mode,
     files !! fullContainerPath f = Some (content, mode) →
     snd <$> files' !! fullContainerPath f = Some mode) ∧
  createSessionEnvFile h opts files' = inr (f, files').
Proof.
  intros Hcreate.
  destruct (createSessionEnvFile_inr _ _ _ _ _ Hcreate)
    as (Hid & Hf & c & Hc & ->).
  split; [by rewrite Hf|]. split; [by rewrite Hf|].
  split; [intros p Hp; by rewrite lookup_insert_ne|].
  split; [intros Hnone; by rewrite lookup_insert_eq, Hnone|].
  split; [intros content mode Hsome; by rewrite lookup_insert_eq, Hsome|].
  revert Hcreate. subst f. unfold createSessionEnvFile, filename. simpl.
  repeat case_bool_decide; try discriminate. rewrite Hc.
  destruct (mkdir_failure _); [discriminate|].
  destruct (writeFileSync h _); [discriminate|].
  intros _. do 2 f_equal.
  rewrite lookup_insert_eq. simpl. by rewrite insert_insert_eq.
Qed.

Lemma createSessionEnvFile_frame_witness :
  let h := Host (λ a b, a ++ js "/" ++ b) (λ _, None) (λ _, None) in
  let opts :=
    EnvOptions (js "abc-123") (js "/run/session-env") (js "/tmp/session-env")
      (Some [(js "API_TOKEN", VString (js "secret-token"))]) in
  let f := EnvFileInfo (js "/run/session-env/session-abc-123.env")
             (js "/tmp/session-env/session-abc-123.env") in
  fullHostPath f
    = path_join h (hostPath opts) (filename (sessionId opts)).
Proof.
  intros h opts f.
  apply (createSessionEnvFile_frame h opts ∅
           (<[js "/run/session-env/session-abc-123.env" :=
                (js "API_TOKEN=secret-token" ++ [10], 384)]> ∅) f).
  reflexivity.
Defined.

(** ** The cleanup closure *)

Lemma envFile_cleanup_frame unlink_error f w (p : list Z) :
  p ≠ fullContainerPath f → fs (envFile_cleanup unlink_error f w) !! p = fs w !! p.
Proof.
  intros Hp. unfold envFile_cleanup, unlinkSync.
  destruct (fs w !! fullContainerPath f);
    [destruct (unlink_error _) as [[code message]|]|];
    repeat case_bool_decide; simpl; try done.
  by rewrite lookup_delete_ne.
Qed.

Lemma envFile_cleanup_subseteq unlink_error f w :
  fs (envFile_cleanup unlink_error f w) ⊆ fs w.
Proof.
  unfold envFile_cleanup, unlinkSync.
  destruct (fs w !! fullContainerPath f);
    [destruct (unlink_error _) as [[code message]|]|];
    repeat case_bool_decide; simpl; try done.
  apply delete_subseteq.
Qed.

Lemma envFile_cleanup_removed unlink_error f w :
  unlink_error (fullContainerPath f) = None →
  envFile_cleanup unlink_error f w
  = World (delete (fullContainerPath f) (fs w)) (console w).
Proof.
  intros Hok. unfold envFile_cleanup, unlinkSync.
  destruct (fs w !! fullContainerPath f) eqn:Hl; [by rewrite Hok|].
  simpl. by rewrite delete_id.
Qed.

Lemma envFile_cleanup_failed unlink_error f w (code message : string)
    (file : list Z * Z) :
  fs w !! fullContainerPath f = Some file →
  unlink_error (fullContainerPath f) = Some (code, message) →
  envFile_cleanup unlink_error f w
  = World (fs w)
      (if bool_decide (code = "ENOENT"%string) then console w
       else console w
            ++ [js "Failed to cleanup env file " ++ fullContainerPath f
                ++ js ": " ++ js message]).
Proof.
  intros Hfile Herr. unfold envFile_cleanup, unlinkSync. rewrite Hfile, Herr.
  destruct (decide (code = "ENOENT"%string)) as [->|Hcode].
  - by rewrite bool_decide_eq_false_2, bool_decide_eq_true_2
      by (done || by intros ?).
  - by rewrite bool_decide_eq_true_2, bool_decide_eq_false_2 by done.
Qed.

(** X18. The [cleanup] closure never throws and touches no other file.
    When [unlinkSync] does not fail on an existing file, the file is gone
    afterwards and nothing is logged, whether or not the file existed; so
    a second [cleanup] does nothing, and creating a file that did not
    exist and cleaning it up gives back the file store. When [unlinkSync]
    fails with another code than [ENOENT], the file store is unchanged and
    one line is logged. *)
Theorem envFile_cleanup_spec h unlink_error (opts : env_options) w
    (files' : gmap (list Z) (list Z * Z)) f :
  createSessionEnvFile h opts (fs w) = inr (f, files') →
  let w' := World files' (console w) in
  (∀ p, p ≠ fullContainerPath f →
        fs (envFile_cleanup unlink_error f w') !! p = fs w !! p) ∧
  (unlink_error (fullContainerPath f) = None →
   envFile_cleanup unlink_error f w'
     = World (cleanup_env_file f (fs w)) (console w) ∧
   envFile_cleanup unlink_error f (envFile_cleanup unlink_error f w')
     = envFile_cleanup unlink_error f w' ∧
   (fs w !! fullContainerPath f = None → envFile_cleanup unlink_error f w' = w)) ∧
  (∀ code message,
     unlink_error (fullContainerPath f) = Some (code, message) →
     envFile_cleanup unlink_error f w'
     = World files'
         (if bool_decide (code = "ENOENT"%string) then console w
          else console w
               ++ [js "Failed to cleanup env file " ++ fullContainerPath f
                   ++ js ": " ++ js message])).
Proof.
  intros Hcreate w'.
  destruct (createSessionEnvFile_inr _ _ _ _ _ Hcreate)
    as (Hid & Hf & c & Hc & Hfiles).
  split; [|split].
  - intros p Hp. rewrite envFile_cleanup_frame by done. simpl.
    by rewrite Hfiles, lookup_insert_ne.
  - intros Hok. rewrite !envFile_cleanup_removed by done. simpl.
    unfold cleanup_env_file.
    rewrite Hfiles, delete_insert_eq.
    split; [done|]. split; [by rewrite delete_delete_eq|].
    intros Hnone. rewrite delete_id by done. by destruct w.
  - intros code message Herr.
    rewrite (envFile_cleanup_failed unlink_error f w' code message
               (envContent c,
                default 384 (snd <$> fs w !! fullContainerPath f)));
      [done| |done].
    simpl. by rewrite Hfiles, lookup_insert_eq.
Qed.

Lemma envFile_cleanup_spec_witness :
  let h := Host (λ a b, a ++ js "/" ++ b) (λ _, None) (λ _, None) in
  let opts :=
    EnvOptions (js "abc-123") (js "/run/session-env") (js "/tmp/session-env")
      (Some [(js "API_TOKEN", VString (js "secret-token"))]) in
  let f := EnvFileInfo (js "/run/session-env/session-abc-123.env")
             (js "/tmp/session-env/session-abc-123.env") in
  let w' := World (<[js "/run/session-env/session-abc-123.env" :=
                       (js "API_TOKEN=secret-token" ++ [10], 384)]> ∅) [] in
  envFile_cleanup (λ _, None) f w' = World ∅ [].
Proof.
  intros h opts f w'.
  apply (envFile_cleanup_spec h (λ _, None) opts (World ∅ []) (fs w') f).
  - reflexivity.
  - reflexivity.
  - reflexivity.
Defined.

(** ** The [files] map *)

Lemma Map_get_None {V} (k : list Z) (m : list (list Z * V)) :
  Map_get k m = None ↔ k ∉ m.*1.
Proof.
  induction m as [|[k' v] m IH]; simpl.
  - split; [intros _; apply not_elem_of_nil | done].
  - case_bool_decide as Hk.
    + subst. split; [done|]. intros []. left.
    + rewrite IH, not_elem_of_cons. split; [by split|by intros [_ ?]].
Qed.

Lemma Map_get_Some {V} (k : list Z) (v : V) (m : list (list Z * V)) :
  Map_get k m = Some v → (k, v) ∈ m.
Proof.
  induction m as [|[k' v'] m IH]; simpl; [done|].
  case_bool_decide; [intros [= <-]; subst; left | intros; right; auto].
Qed.

Lemma Map_get_delete {V} (k k' : list Z) (m : list (list Z * V)) :
  Map_get k (Map_delete k' m)
  = if decide (k = k') then None else Map_get k m.
Proof.
  unfold Map_delete. induction m as [|[k0 v] m IH]; simpl.
  - by destruct (decide _).
  - rewrite filter_cons. simpl. destruct (decide (k0 ≠ k')) as [Hne|Heq].
    + simpl. rewrite IH.
      case_bool_decide; [subst; by rewrite decide_False | done].
    + apply dec_stable in Heq. subst k0. rewrite IH.
      destruct (decide (k = k')); [done|].
      by rewrite bool_decide_eq_false_2 by done.
Qed.

Lemma Map_delete_absent {V} (k : list Z) (m : list (list Z * V)) :
  Map_get k m = None → Map_delete k m = m.
Proof.
  unfold Map_delete. induction m as [|[k0 v] m IH]; simpl; [done|].
  case_bool_decide as Hk; [done|]. intros Hnone.
  rewrite filter_cons, decide_True by done. by rewrite IH.
Qed.

Lemma Map_set_absent {V} (k : list Z) (v : V) (m : list (list Z * V)) :
  Map_get k m = None → Map_set k v m = m ++ [(k, v)].
Proof.
  induction m as [|[k0 v0] m IH]; simpl; [done|].
  case_bool_decide as Hk; [done|]. intros Hnone. by rewrite IH.
Qed.

Lemma Map_get_app {V} (k k' : list Z) (v : V) (m : list (list Z * V)) :
  Map_get k m = None →
  Map_get k' (m ++ [(k, v)])
  = if decide (k' = k) then Some v else Map_get k' m.
Proof.
  induction m as [|[k0 v0] m IH]; simpl.
  - intros _. case_bool_decide; subst.
    + by rewrite decide_True.
    + by rewrite decide_False.
  - case_bool_decide as Hk; [done|]. intros Hnone. rewrite IH by done.
    case_bool_decide; [subst; by rewrite decide_False | done].
Qed.

Lemma Map_delete_length {V} (k : list Z) (m : list (list Z * V)) :
  (length (Map_delete k m) ≤ length m)%nat.
Proof. apply length_filter. Qed.

Lemma Map_delete_fst {V} (k : list Z) (m : list (list Z * V)) :
  (Map_delete k m).*1 = filter (λ k', k' ≠ k) (m.*1).
Proof.
  unfold Map_delete. induction m as [|[k0 v] m IH]; [done|].
  rewrite fmap_cons, !filter_cons. cbn [fst].
  destruct (decide (k0 ≠ k)); [rewrite fmap_cons; cbn [fst]; f_equal|];
    exact IH.
Qed.

Lemma Map_delete_NoDup {V} (k : list Z) (m : list (list Z * V)) :
  NoDup (m.*1) → NoDup ((Map_delete k m).*1).
Proof. rewrite Map_delete_fst. apply NoDup_filter. Qed.

Lemma Map_delete_length_tracked {V} (k : list Z) (m : list (list Z * V)) :
  NoDup (m.*1) → is_Some (Map_get k m) →
  length m = S (length (Map_delete k m)).
Proof.
  induction m as [|[k0 v] m IH]; simpl; [by intros _ [? ?]|].
  rewrite NoDup_cons. intros [Hnotin Hnd].
  unfold Map_delete. rewrite filter_cons. simpl.
  case_bool_decide as Hk.
  - intros _. subst k0. rewrite decide_False by (by intros ?).
    fold (Map_delete k m). rewrite Map_delete_absent; [done|].
    by apply Map_get_None.
  - intros Hsome. rewrite decide_True by done. simpl.
    fold (Map_delete k m). by rewrite <- IH.
Qed.

Lemma Map_get_all_None {V} (m : list (list Z * V)) :
  (∀ k, Map_get k m = None) → m = [].
Proof.
  destruct m as [|[k v] m]; [done|]. intros Hnone.
  specialize (Hnone k). simpl in Hnone.
  by rewrite bool_decide_eq_true_2 in Hnone.
Qed.

(** ** The manager's [cleanup] *)

Lemma manager_cleanup_files unlink_error (sid : list Z) st :
  files (manager_cleanup unlink_error sid st).1
  = Map_delete sid (files st.1).
Proof.
  unfold manager_cleanup.
  destruct (Map_get sid (files st.1)) eqn:Hget; [done|].
  by rewrite Map_delete_absent.
Qed.

Lemma manager_cleanup_base unlink_error (sid : list Z) st :
  base_containerPath (manager_cleanup unlink_error sid st).1
    = base_containerPath st.1 ∧
  base_hostPath (manager_cleanup unlink_error sid st).1 = base_hostPath st.1.
Proof.
  unfold manager_cleanup. by destruct (Map_get sid (files st.1)).
Qed.

Lemma manager_cleanup_subseteq unlink_error (sid : list Z) st :
  fs (manager_cleanup unlink_error sid st).2 ⊆ fs st.2.
Proof.
  unfold manager_cleanup. destruct (Map_get sid (files st.1)); [|done].
  apply envFile_cleanup_subseteq.
Qed.

Lemma manager_cleanup_get unlink_error (sid sid' : list Z) st :
  manager_get sid' (manager_cleanup unlink_error sid st).1
  = if decide (sid' = sid) then None else manager_get sid' st.1.
Proof.
  unfold manager_get. by rewrite manager_cleanup_files, Map_get_delete.
Qed.

Lemma manager_cleanup_untracked unlink_error (sid : list Z) st :
  manager_get sid st.1 = None → manager_cleanup unlink_error sid st = st.
Proof. unfold manager_get, manager_cleanup. by intros ->. Qed.

Lemma manager_cleanup_file_removed unlink_error (sid : list Z) st f :
  manager_get sid st.1 = Some f →
  unlink_error (fullContainerPath f) = None →
  fs (manager_cleanup unlink_error sid st).2 !! fullContainerPath f = None.
Proof.
  unfold manager_get, manager_cleanup. intros -> Hok. simpl.
  rewrite envFile_cleanup_removed by done. simpl. apply lookup_delete_eq.
Qed.

(** X19. The manager's [cleanup(sessionId)]: for a session that is not
    tracked nothing happens at all; for a tracked one the session is
    forgotten, the other sessions are kept, only the session's file is
    touched, it is gone when [unlinkSync] does not fail, and [size()] goes
    down by one. A second [cleanup] of the same session does nothing. *)
Theorem manager_cleanup_spec unlink_error (sid : list Z) st :
  (manager_get sid st.1 = None → manager_cleanup unlink_error sid st = st) ∧
  manager_get sid (manager_cleanup unlink_error sid st).1 = None ∧
  (∀ sid', sid' ≠ sid →
     manager_get sid' (manager_cleanup unlink_error sid st).1
     = manager_get sid' st.1) ∧
  (∀ f, manager_get sid st.1 = Some f →
     (∀ p, p ≠ fullContainerPath f →
           fs (manager_cleanup unlink_error sid st).2 !! p = fs st.2 !! p) ∧
     (unlink_error (fullContainerPath f) = None →
      fs (manager_cleanup unlink_error sid st).2 !! fullContainerPath f
      = None) ∧
     (NoDup ((files st.1).*1) →
      manager_size (manager_cleanup unlink_error sid st).1
      = manager_size st.1 - 1)) ∧
  manager_cleanup unlink_error sid (manager_cleanup unlink_error sid st)
  = manager_cleanup unlink_error sid st.
Proof.
  split; [apply manager_cleanup_untracked|].
  split; [by rewrite manager_cleanup_get, decide_True|].
  split; [intros sid' Hne; by rewrite manager_cleanup_get, decide_False|].
  split.
  - intros f Hget. split; [|split].
    + intros p Hp. unfold manager_get in Hget. unfold manager_cleanup.
      rewrite Hget. simpl. by apply envFile_cleanup_frame.
    + by apply manager_cleanup_file_removed.
    + intros Hnd. unfold manager_size. rewrite manager_cleanup_files.
      rewrite (Map_delete_length_tracked sid (files st.1)) by eauto. lia.
  - apply manager_cleanup_untracked.
    by rewrite manager_cleanup_get, decide_True.
Qed.

(** ** The manager's [create] *)

(** The state in which [create] calls [createSessionEnvFile]. *)
Lemma manager_create_unfold h unlink_error (sid : list Z)
    (credentials : option (list (list Z * value))) st :
  manager_create h unlink_error sid credentials st
  = let st1 := manager_cleanup unlink_error sid st in
    match createSessionEnvFile h
            (EnvOptions sid (base_containerPath st.1) (base_hostPath st.1)
               credentials)
            (fs st1.2) with
    | inl e => (inl e, st1)
    | inr (envFile, files') =>
        (inr envFile,
         (Manager (base_containerPath st.1) (base_hostPath st.1)
            (Map_delete sid (files st.1) ++ [(sid, envFile)]),
          World files' (console st1.2)))
    end.
Proof.
  unfold manager_create, Map_has. cbv zeta.
  assert ((if bool_decide (is_Some (Map_get sid (files st.1)))
           then manager_cleanup unlink_error sid st else st)
          = manager_cleanup unlink_error sid st) as ->.
  { case_bool_decide as Hsome; [done|].
    unfold manager_cleanup. destruct (Map_get sid (files st.1)); [|done].
    destruct Hsome. eauto. }
  destruct (manager_cleanup_base unlink_error sid st) as [-> ->].
  destruct (createSessionEnvFile _ _ _) as [e|[envFile files']]; [done|].
  rewrite manager_cleanup_files, Map_set_absent; [done|].
  rewrite Map_get_delete. by rewrite decide_True.
Qed.

(** X20. A successful [create(sessionId, credentials)] of the manager:
    the session is tracked with the returned paths, which are the
    manager's base paths joined with the session's file name, and it is the
    last entry of [files]; the other sessions are as before; the file holds
    the rendered credentials; [size()] grows by one for a session that was
    not tracked and stays the same for one that was. *)
Theorem manager_create_tracks h unlink_error (sid : list Z)
    (credentials : option (list (list Z * value))) st f st' :
  manager_create h unlink_error sid credentials st = (inr f, st') →
  files st'.1 = Map_delete sid (files st.1) ++ [(sid, f)] ∧
  manager_get sid st'.1 = Some f ∧
  (∀ sid', sid' ≠ sid → manager_get sid' st'.1 = manager_get sid' st.1) ∧
  f = EnvFileInfo (path_join h (base_containerPath st.1) (filename sid))
        (path_join h (base_hostPath st.1) (filename sid)) ∧
  (∃ c, credentials = Some c ∧
        fst <$> fs st'.2 !! fullContainerPath f = Some (envContent c)) ∧
  (manager_get sid st.1 = None →
   manager_size st'.1 = manager_size st.1 + 1 ∧
   console st'.2 = console st.2) ∧
  (NoDup ((files st.1).*1) → is_Some (manager_get sid st.1) →
   manager_size st'.1 = manager_size st.1).
Proof.
  rewrite manager_create_unfold. cbv zeta.
  destruct (createSessionEnvFile _ _ _) as [e|[envFile files']] eqn:Hcreate;
    [discriminate|].
  intros [= -> <-]. simpl.
  destruct (createSessionEnvFile_inr _ _ _ _ _ Hcreate)
    as (Hid & Hf & c & Hc & Hfiles). simpl in Hf, Hc.
  assert (Map_get sid (Map_delete sid (files st.1)) = None) as Habsent
    by (rewrite Map_get_delete; by rewrite decide_True).
  split; [done|]. unfold manager_get, manager_size. simpl.
  split; [by rewrite Map_get_app, decide_True|].
  split.
  { intros sid' Hne.
    by rewrite Map_get_app, decide_False, Map_get_delete, decide_False. }
  split; [done|]. split.
  { exists c. split; [done|]. by rewrite Hfiles, lookup_insert_eq. }
  split.
  - intros Hnone. rewrite Map_delete_absent, length_app by done. simpl.
    split; [lia|]. unfold manager_cleanup. by rewrite Hnone.
  - intros Hnd Hsome. rewrite length_app. simpl.
    rewrite (Map_delete_length_tracked sid (files st.1)) by done. lia.
Qed.

Lemma manager_create_tracks_witness :
  let f := EnvFileInfo (js "/run/session-env/session-s1.env")
             (js "/tmp/session-env/session-s1.env") in
  let m' := Manager (js "/run/session-env") (js "/tmp/session-env")
              [(js "s1", f)] in
  manager_get (js "s1") m' = Some f ∧ manager_size m' = 0 + 1.
Proof.
  intros f m'.
  destruct (manager_create_tracks
              (Host (λ a b, a ++ js "/" ++ b) (λ _, None) (λ _, None))
              (λ _, None) (js "s1")
              (Some [(js "API_TOKEN", VString (js "secret"))])
              (Manager (js "/run/session-env") (js "/tmp/session-env") [],
               World ∅ [])
              f
              (m', World (<[js "/run/session-env/session-s1.env" :=
                              (js "API_TOKEN=secret" ++ [10], 384)]> ∅) []))
    as (_ & Hget & _ & _ & _ & Hsize & _).
  - reflexivity.
  - split; [exact Hget|]. apply Hsize. reflexivity.
Defined.

(** X21. A [create] that throws leaves the session untracked, also when
    it was tracked before: the state is the one after [cleanup(sessionId)],
    so the session's previous file is removed (when [unlinkSync] does not
    fail) and [get] no longer finds the session. The other sessions are
    as before, and for a session that was not tracked nothing changes. *)
Theorem manager_create_failure h unlink_error (sid : list Z)
    (credentials : option (list (list Z * value))) st (e : string) st' :
  manager_create h unlink_error sid credentials st = (inl e, st') →
  st' = manager_cleanup unlink_error sid st ∧
  manager_get sid st'.1 = None ∧
  (∀ sid', sid' ≠ sid → manager_get sid' st'.1 = manager_get sid' st.1) ∧
  (∀ f, manager_get sid st.1 = Some f →
        unlink_error (fullContainerPath f) = None →
        fs st'.2 !! fullContainerPath f = None) ∧
  (manager_get sid st.1 = None → st' = st).
Proof.
  rewrite manager_create_unfold. cbv zeta.
  destruct (createSessionEnvFile _ _ _) as [e'|[envFile files']];
    [|discriminate].
  intros [= _ <-].
  split; [done|].
  split; [by rewrite manager_cleanup_get, decide_True|].
  split; [intros sid' Hne; by rewrite manager_cleanup_get, decide_False|].
  split; [intros f; apply manager_cleanup_file_removed|].
  apply manager_cleanup_untracked.
Qed.

Lemma manager_create_failure_witness :
  let f := EnvFileInfo (js "/run/session-env/session-s1.env")
             (js "/tmp/session-env/session-s1.env") in
  let st := (Manager (js "/run/session-env") (js "/tmp/session-env")
               [(js "s1", f)],
             World (<[js "/run/session-env/session-s1.env" :=
                        (js "API_TOKEN=secret" ++ [10], 384)]> ∅) []) in
  let st' := (Manager (js "/run/session-env") (js "/tmp/session-env") [],
              World ∅ []) in
  st' = manager_cleanup (λ _, None) (js "s1") st ∧
  manager_get (js "s1") st'.1 = None.
Proof.
  intros f st st'.
  destruct (manager_create_failure
              (Host (λ a b, a ++ js "/" ++ b) (λ _, None) (λ _, None))
              (λ _, None) (js "s1") None st
              "credentials must be an object" st')
    as (Hst & Hget & _).
  - reflexivity.
  - split; [exact Hst | exact Hget].
Defined.

(** ** The manager's [cleanupAll] *)

Lemma cleanup_keys_get unlink_error (ks : list (list Z)) st (sid : list Z) :
  Map_get sid
    (files (fold_left (λ st sessionId,
                         manager_cleanup unlink_error sessionId st) ks st).1)
  = if decide (sid ∈ ks) then None else Map_get sid (files st.1).
Proof.
  revert st. induction ks as [|k ks IH]; intros st; cbn [fold_left].
  - destruct (decide _) as [Hin|]; [by apply elem_of_nil in Hin|done].
  - rewrite IH, manager_cleanup_files, Map_get_delete.
    destruct (decide (sid ∈ ks)) as [Hin|Hnotin].
    + by rewrite decide_True by (by right).
    + destruct (decide (sid = k)) as [->|Hne].
      * by rewrite decide_True by left.
      * rewrite decide_False; [done|].
        rewrite elem_of_cons. by intros [?|?].
Qed.

Lemma cleanup_keys_base unlink_error (ks : list (list Z)) st :
  let st' := fold_left (λ st sessionId,
                          manager_cleanup unlink_error sessionId st) ks st in
  base_containerPath st'.1 = base_containerPath st.1 ∧
  base_hostPath st'.1 = base_hostPath st.1 ∧
  fs st'.2 ⊆ fs st.2.
Proof.
  revert st. induction ks as [|k ks IH]; intros st; simpl; [done|].
  destruct (IH (manager_cleanup unlink_error k st)) as (-> & -> & Hsub).
  destruct (manager_cleanup_base unlink_error k st) as [-> ->].
  split; [done|]. split; [done|].
  etrans; [exact Hsub|]. apply manager_cleanup_subseteq.
Qed.

Lemma cleanup_keys_frame unlink_error (ks : list (list Z)) st (p : list Z) :
  (∀ sid f, Map_get sid (files st.1) = Some f → fullContainerPath f ≠ p) →
  fs (fold_left (λ st sessionId,
                   manager_cleanup unlink_error sessionId st) ks st).2 !! p
  = fs st.2 !! p.
Proof.
  revert st. induction ks as [|k ks IH]; intros st Hp; simpl; [done|].
  rewrite IH.
  - unfold manager_cleanup.
    destruct (Map_get k (files st.1)) as [f|] eqn:Hget; [|done].
    simpl. apply envFile_cleanup_frame. intros ->. by apply (Hp k f).
  - intros sid f. rewrite manager_cleanup_files, Map_get_delete.
    destruct (decide (sid = k)); [done|]. apply Hp.
Qed.

Lemma cleanup_keys_removed unlink_error (ks : list (list Z)) st
    (sid : list Z) f :
  sid ∈ ks → Map_get sid (files st.1) = Some f →
  unlink_error (fullContainerPath f) = None →
  fs (fold_left (λ st sessionId,
                   manager_cleanup unlink_error sessionId st) ks st).2
    !! fullContainerPath f = None.
Proof.
  revert st. induction ks as [|k ks IH]; intros st Hin Hget Hok;
    [by apply elem_of_nil in Hin|].
  simpl. destruct (decide (sid = k)) as [<-|Hne].
  - eapply lookup_weaken_None; [|apply cleanup_keys_base].
    unfold manager_cleanup. rewrite Hget. simpl.
    rewrite envFile_cleanup_removed by done. simpl. apply lookup_delete_eq.
  - apply IH; [|by rewrite manager_cleanup_files, Map_get_delete,
                     decide_False|done].
    apply elem_of_cons in Hin as [?|?]; done.
Qed.

Lemma manager_cleanupAll_files unlink_error st :
  files (manager_cleanupAll unlink_error st).1 = [].
Proof.
  unfold manager_cleanupAll.
  apply Map_get_all_None. intros k. rewrite cleanup_keys_get.
  destruct (decide (k ∈ (files st.1).*1)) as [Hin|Hnotin]; [done|].
  by apply Map_get_None.
Qed.

(** X22. After [cleanupAll()] no session is tracked ([size()] is 0),
    whatever [unlinkSync] does; the file of every session that was tracked
    is gone when [unlinkSync] does not fail on it; and a file that is not
    the file of a tracked session is left as it is. *)
Theorem manager_cleanupAll_spec unlink_error st :
  files (manager_cleanupAll unlink_error st).1 = [] ∧
  manager_size (manager_cleanupAll unlink_error st).1 = 0 ∧
  base_containerPath (manager_cleanupAll unlink_error st).1
    = base_containerPath st.1 ∧
  base_hostPath (manager_cleanupAll unlink_error st).1
    = base_hostPath st.1 ∧
  (∀ sid f, manager_get sid st.1 = Some f →
     unlink_error (fullContainerPath f) = None →
     fs (manager_cleanupAll unlink_error st).2 !! fullContainerPath f
     = None) ∧
  (∀ p, (∀ sid f, manager_get sid st.1 = Some f → fullContainerPath f ≠ p) →
        fs (manager_cleanupAll unlink_error st).2 !! p = fs st.2 !! p).
Proof.
  pose proof (manager_cleanupAll_files unlink_error st) as Hnil.
  unfold manager_size. rewrite Hnil.
  unfold manager_cleanupAll, manager_get.
  destruct (cleanup_keys_base unlink_error ((files st.1).*1) st)
    as (Hc & Hh & _).
  split; [done|]. split; [done|].
  split; [done|]. split; [done|]. split.
  - intros sid f Hget Hok. apply (cleanup_keys_removed _ _ _ sid); try done.
    apply Map_get_Some in Hget.
    apply list_elem_of_fmap. by exists (sid, f).
  - intros p Hp. by apply cleanup_keys_frame.
Qed.

(** ** Reachable states of a manager *)

Lemma manager_ok_cleanup join (cp hp : list Z) unlink_error (sid : list Z)
    st :
  manager_ok join cp hp st.1 →
  manager_ok join cp hp (manager_cleanup unlink_error sid st).1.
Proof.
  intros (Hc & Hh & Hnd & Hall). unfold manager_ok.
  destruct (manager_cleanup_base unlink_error sid st) as [-> ->].
  rewrite manager_cleanup_files.
  split; [done|]. split; [done|].
  split; [by apply Map_delete_NoDup|].
  rewrite Forall_forall in Hall. apply Forall_forall.
  intros kv [_ Hin]%list_elem_of_filter. by apply Hall.
Qed.

Lemma manager_ok_step join (cp hp : list Z) st (c : manager_call) :
  manager_ok join cp hp st.1 →
  manager_ok join cp hp (manager_step join st c).1 ∧
  (length (files (manager_step join st c).1)
   ≤ length (files st.1) + (if is_create c then 1 else 0))%nat.
Proof.
  intros Hok. destruct c as [mkdir write ue sid creds|ue sid|ue]; simpl.
  - rewrite manager_create_unfold. cbv zeta.
    pose proof (manager_ok_cleanup join cp hp ue sid st Hok) as Hok1.
    pose proof (Map_delete_length sid (files st.1)) as Hlen.
    destruct (createSessionEnvFile _ _ _) as [e|[envFile files']] eqn:Hcreate.
    + simpl. split; [done|]. rewrite manager_cleanup_files. lia.
    + simpl. rewrite length_app. simpl. split; [|lia].
      destruct (createSessionEnvFile_inr _ _ _ _ _ Hcreate)
        as (Hid & Hf & _). simpl in Hid, Hf.
      destruct Hok as (Hc & Hh & Hnd & Hall).
      destruct Hok1 as (_ & _ & Hnd1 & Hall1).
      rewrite manager_cleanup_files in Hnd1, Hall1.
      unfold manager_ok. simpl. split; [done|]. split; [done|]. split.
      * rewrite fmap_app. simpl. apply NoDup_app. split; [done|].
        split; [|apply NoDup_singleton].
        intros k Hin ->%list_elem_of_singleton.
        rewrite Map_delete_fst in Hin.
        by apply list_elem_of_filter in Hin as [? _].
      * apply Forall_app. split; [done|]. apply Forall_singleton.
        simpl. split; [done|]. by rewrite Hf, Hc, Hh.
  - split; [by apply manager_ok_cleanup|].
    rewrite manager_cleanup_files.
    pose proof (Map_delete_length sid (files st.1)). lia.
  - pose proof (manager_cleanupAll_files ue st) as Hnil.
    destruct (cleanup_keys_base ue ((files st.1).*1) st) as (Hc & Hh & _).
    fold (manager_cleanupAll ue st) in Hc, Hh.
    split; [|rewrite Hnil; simpl; lia].
    destruct Hok as (Hc' & Hh' & _ & _).
    unfold manager_ok. rewrite Hnil, Hc, Hh. simpl.
    split; [done|]. split; [done|]. split; [apply NoDup_nil_2|done].
Qed.

Lemma manager_ok_run join (cp hp : list Z) (calls : list manager_call) st :
  manager_ok join cp hp st.1 →
  manager_ok join cp hp (manager_run join calls st).1 ∧
  (length (files (manager_run join calls st).1)
   ≤ length (files st.1) + length (List.filter is_create calls))%nat.
Proof.
  revert st. unfold manager_run.
  induction calls as [|c calls IH]; intros st Hok; cbn [fold_left List.filter].
  - split; [done|simpl; lia].
  - destruct (manager_ok_step join cp hp st c Hok) as [Hok1 Hlen1].
    destruct (IH _ Hok1) as [Hok2 Hlen2]. split; [done|].
    unfold manager_run in Hlen2. cbn [fold_left].
    destruct (is_create c); cbn [length] in *; lia.
Qed.

(** X23. What holds of a manager after any sequence of [create],
    [cleanup] and [cleanupAll] calls, whatever the file system answers and
    whichever [create] calls throw: the base paths are those it was made
    with, both non-empty; no session is tracked twice; every tracked
    session has a non-empty id and the two paths made from it; and
    [size()] is at most the number of [create] calls. *)
Theorem manager_invariant h (cp hp : list Z) w (m0 : manager) (w0 : world)
    (calls : list manager_call) :
  createEnvFileManager h cp hp w = inr (m0, w0) →
  let st := manager_run (path_join h) calls (m0, w0) in
  cp ≠ [] ∧ hp ≠ [] ∧ manager_size m0 = 0 ∧ fs w0 = fs w ∧
  manager_ok (path_join h) cp hp st.1 ∧
  (∀ sid f, manager_get sid st.1 = Some f →
     sid ≠ [] ∧
     fullContainerPath f = path_join h cp (filename sid) ∧
     fullHostPath f = path_join h hp (filename sid)) ∧
  manager_size st.1 ≤ Z.of_nat (length (List.filter is_create calls)).
Proof.
  intros Hnew. cbv zeta. unfold createEnvFileManager in Hnew.
  destruct (bool_decide (cp = [])) eqn:Hcp; [discriminate|].
  destruct (bool_decide (hp = [])) eqn:Hhp; [discriminate|].
  apply bool_decide_eq_false in Hcp, Hhp. simpl in Hnew.
  assert (m0 = Manager cp hp []) as -> by congruence.
  assert (fs w0 = fs w) as Hfs.
  { destruct (mkdirSync h cp) as [[code message]|];
      [case_bool_decide|]; by injection Hnew as <-. }
  clear Hnew.
  split; [done|]. split; [done|]. split; [done|]. split; [done|].
  destruct (manager_ok_run (path_join h) cp hp calls (Manager cp hp [], w0))
    as [Hok Hlen].
  { unfold manager_ok. simpl.
    split; [done|]. split; [done|]. split; [apply NoDup_nil_2|done]. }
  split; [done|]. split.
  - intros sid f Hget. apply Map_get_Some in Hget.
    destruct Hok as (_ & _ & _ & Hall).
    rewrite Forall_forall in Hall. destruct (Hall _ Hget) as [Hid Hf].
    simpl in Hid, Hf. by rewrite Hf.
  - unfold manager_size. simpl in Hlen. lia.
Qed.

Lemma manager_invariant_witness :
  let h := Host (λ a b, a ++ js "/" ++ b) (λ _, None) (λ _, None) in
  let calls :=
    [MCreate (λ _, None) (λ _, None) (λ _, None) (js "s1")
       (Some [(js "API_TOKEN", VString (js "secret"))]);
     MCreate (λ _, None) (λ _, Some "EACCES: permission denied"%string)
       (λ _, None) (js "s1") (Some []);
     MCreate (λ _, None) (λ _, None) (λ _, None) (js "s2") (Some []);
     MCleanup (λ _, None) (js "s3")] in
  let st := manager_run (path_join h) calls
              (Manager (js "/run/session-env") (js "/tmp/session-env") [],
               World ∅ []) in
  manager_ok (path_join h) (js "/run/session-env") (js "/tmp/session-env")
    st.1 ∧
  manager_size st.1 ≤ 3.
Proof.
  intros h calls st.
  destruct (manager_invariant h (js "/run/session-env")
              (js "/tmp/session-env") (World ∅ [])
              (Manager (js "/run/session-env") (js "/tmp/session-env") [])
              (World ∅ []) calls)
    as (_ & _ & _ & _ & Hok & _ & Hsize).
  - reflexivity.
  - split; [exact Hok | exact Hsize].
Defined.

End EnvFileManagerFacts.

(** ** reconnect-lock.js *)

Module ReconnectLockFacts.
Import ReconnectLock.

Lemma lock_run_cons (c : lock_call) (calls : list lock_call) (locked : bool) :
  lock_run (c :: calls) locked
  = ((lock_step locked c).1 :: (lock_run calls (lock_step locked c).2).1,
     (lock_run calls (lock_step locked c).2).2).
Proof.
  cbn [lock_run]. destruct (lock_step locked c) as [r l]. simpl.
  by destruct (lock_run calls l).
Qed.

(** On a held lock, an [acquire] succeeds only after a [release]. *)
Lemma lock_run_held (calls : list lock_call) (j : nat) :
  calls !! j = Some Acquire →
  (lock_run calls true).1 !! j = Some (Some true) →
  ∃ k, (k < j)%nat ∧ calls !! k = Some Release.
Proof.
  revert j. induction calls as [|c calls IH]; intros j Hc Hr; [done|].
  rewrite lock_run_cons in Hr.
  destruct c; simpl in Hr.
  - destruct j as [|j]; [discriminate|]. simpl in Hc, Hr.
    destruct (IH j Hc Hr) as (k & Hk & Hrel).
    exists (S k). split; [lia|done].
  - destruct j as [|j]; [discriminate|].
    exists 0%nat. split; [lia|done].
  - destruct j as [|j]; [discriminate|]. simpl in Hc, Hr.
    destruct (IH j Hc Hr) as (k & Hk & Hrel).
    exists (S k). split; [lia|done].
Qed.

Lemma lock_run_length (calls : list lock_call) (locked : bool) :
  length (lock_run calls locked).1 = length calls.
Proof.
  revert locked. induction calls as [|c calls IH]; intros locked; [done|].
  rewrite lock_run_cons. simpl. by rewrite IH.
Qed.

(** X24. Mutual exclusion over any sequence of [acquire], [release] and
    [isLocked] calls, from any state of the lock: between two [acquire]
    calls that both return [true] there is a [release] call. An [acquire]
    returns [true] exactly when an [isLocked] in its place would return
    [false], and an [isLocked] right after it returns [true]. *)
Theorem lock_exclusion (calls : list lock_call) (locked : bool) (i j : nat) :
  (i < j)%nat →
  calls !! i = Some Acquire →
  (lock_run calls locked).1 !! i = Some (Some true) →
  calls !! j = Some Acquire →
  (lock_run calls locked).1 !! j = Some (Some true) →
  ∃ k, (i < k < j)%nat ∧ calls !! k = Some Release.
Proof.
  revert locked i j.
  induction calls as [|c calls IH]; intros locked i j Hij Hci Hri Hcj Hrj;
    [done|].
  rewrite lock_run_cons in Hri, Hrj. simpl in Hri, Hrj.
  destruct j as [|j]; [lia|]. simpl in Hcj, Hrj.
  destruct i as [|i].
  - simpl in Hci, Hri. injection Hci as ->.
    destruct locked; [discriminate|]. simpl in Hrj.
    destruct (lock_run_held calls j Hcj Hrj) as (k & Hk & Hrel).
    exists (S k). split; [lia|done].
  - simpl in Hci, Hri.
    destruct (IH _ i j ltac:(lia) Hci Hri Hcj Hrj) as (k & Hk & Hrel).
    exists (S k). split; [lia|done].
Qed.

Lemma lock_exclusion_witness :
  ∃ k, (0 < k < 3)%nat
       ∧ [Acquire; Acquire; Release; Acquire] !! k = Some Release.
Proof.
  apply (lock_exclusion [Acquire; Acquire; Release; Acquire]
           createReconnectionLock 0 3).
  - lia.
  - reflexivity.
  - reflexivity.
  - reflexivity.
  - reflexivity.
Defined.

(** X25. The state of a lock after any sequence of calls is decided by the
    last [acquire] or [release] call alone: held after an [acquire]
    (whether it succeeded or not), free after a [release] (whoever
    acquired the lock), unchanged when there was neither. *)
Theorem lock_state_last_call (calls : list lock_call) (locked : bool) :
  (lock_run calls locked).2
  = match last (filter (λ c, c ≠ IsLocked) calls) with
    | Some Acquire => true
    | Some Release => false
    | _ => locked
    end.
Proof.
  revert locked. induction calls as [|c calls IH]; intros locked; [done|].
  rewrite lock_run_cons. cbn [snd]. rewrite IH, filter_cons.
  destruct c; simpl; rewrite ?last_cons;
    destruct (last (filter _ calls)) as [[]|] eqn:Hlast;
    try (by destruct locked).
  all: by apply last_Some_elem_of, list_elem_of_filter in Hlast as [? _].
Qed.

(** X26. [withLock] on a held lock returns [null] without calling [fn]
    and leaves the lock held. On a free lock it calls [fn] with the lock
    held, passes on what [fn] returns or throws, and leaves the lock free
    in both cases, whatever happened to the lock in the meantime. A
    [withLock] inside a [withLock] therefore returns [null]; but after a
    [release] by anyone, the operation of a second [withLock] runs while
    the first is still in progress. *)
Theorem withLock_spec {A} (fn : bool → outcome A * bool) :
  withLock fn true = (Returned None, true) ∧
  (withLock fn false).2 = false ∧
  (∀ v l, fn true = (Returned v, l) →
          withLock fn false = (Returned (Some v), false)) ∧
  (∀ e l, fn true = (Thrown e, l) →
          withLock fn false = (Thrown e, false)) ∧
  withLock (withLock fn) false = (Returned (Some None), false) ∧
  (∀ v l, fn true = (Returned v, l) →
          withLock (λ held, withLock fn (release held)) false
          = (Returned (Some (Some v)), false)).
Proof.
  unfold withLock, acquire, release. simpl.
  destruct (fn true) as [[v|e] l] eqn:Hfn; simpl;
    repeat split; try done; intros; congruence.
Qed.

End ReconnectLockFacts.

(** ** The cases of the repository's test suite *)

Module Tests.
Import JS Encoding Session RateLimit.

(** SHA-256 of "abc" (FIPS 180-4) and HMAC-SHA256 test case 2 of
    RFC 4231. *)
Example sha256_abc :
  hex_encode (SHA256.sha256 (js "abc"))
  = js "ba7816bf8f01cfea414140de5dae2223b00361a396177a9cb410ff61f20015ad".
Proof. vm_compute. reflexivity. Qed.

Example hmac_rfc4231_2 :
  hex_encode (SHA256.hmac (js "Jefe") (js "what do ya want for nothing?"))
  = js "5bdcc146bf60754e6a042426089575c75a003f089d2739839dec58b964ec3843".
Proof. vm_compute. reflexivity. Qed.

(** The data part of the example in the documentation of
    [generateSessionToken]. *)
Example generate_example :
  ∃ signature,
    generateSessionToken (js "abc-123") (js "my-secret") 1705000000000
      = inr (js "YWJjLTEyMzoxNzA1MDAwMDAwMDAw" ++ js "." ++ signature)
    ∧ length signature = 64%nat.
Proof. eexists. vm_compute. split; reflexivity. Qed.

(** 'rejects malformed token'. *)
Example validate_malformed :
  validateSessionToken (js "not-a-valid-token") (js "test-secret-key")
  = Rejected "Invalid token format".
Proof. vm_compute. reflexivity. Qed.

(** 'rejects token with tampered data'. *)
Example validate_tampered :
  match generateSessionToken (js "my-session") (js "test-secret-key")
          1705000000000 with
  | inr token =>
      match split 46 token with
      | [_; signature] =>
          validateSessionToken
            (base64_encode (utf8_encode (js "tampered:12345")) ++ js "."
             ++ signature) (js "test-secret-key")
          = Rejected "Invalid signature"
      | _ => False
      end
  | inl _ => False
  end.
Proof. vm_compute. reflexivity. Qed.

(** 'handles invalid token'. *)
Example expired_invalid :
  isSessionTokenExpired (js "invalid") (js "test-secret") (60 * 1000)
    1705000000000
  = Expiry true None (Some "Invalid token format"%string).
Proof. vm_compute. reflexivity. Qed.

(** 'allows requests within limit' and 'blocks requests exceeding
    limit'. *)
Example check_within_limit :
  (check_seq (Options 60000 3 1000) (js "ip-1")
     [(10, 10); (20, 20); (30, 30)] ∅).1
  = [CheckResult true 2 None; CheckResult true 1 None;
     CheckResult true 0 None].
Proof. vm_compute. reflexivity. Qed.

Example check_exceeding_limit :
  (check_seq (Options 60000 2 1000) (js "ip-2")
     [(10, 10); (20, 20); (30, 30)] ∅).1
  = [CheckResult true 1 None; CheckResult true 0 None;
     CheckResult false 0 (Some 60)].
Proof. vm_compute. reflexivity. Qed.

End Tests.
